(** * Stoichiometry core of BalanceEstequimetrico (quimica.js)

    A shallow embedding of the chemistry functions of [quimica.js]:
    the formula and equation parsers, the balance check, the molar
    mass and unit conversions and the stoichiometry engine, followed
    by the properties established about them.

    Conventions of the embedding.
    - A JavaScript string is the list of its UTF-16 code units.
    - A JavaScript object used as a map is an association list in
      insertion order (the order [for ... in] and [Object.keys]
      follow for keys that are not array indices, which element
      symbols never are).
    - Integers produced by [parseInt] on a run of digits are exact
      integers of [Z].
    - A JavaScript number taking part in real-valued arithmetic is
      an exact rational, or one of [Infinity], [-Infinity], [NaN]:
      rounding, overflow and the sign of zero are outside the model.
    - [throw] is the [Lanza] outcome of a result type. *)

From Stdlib Require Import List NArith ZArith QArith Bool String Ascii Lia Lqa.
From Stdlib Require Import Permutation.
Import ListNotations.

Set Implicit Arguments.

(** ** Outcomes: a value, or a thrown error *)

#[warnings="-register-all"] Inductive error : Type :=
| ErrorFlecha                      (* Error('La ecuación debe tener exactamente una flecha ...') *)
| ErrorElemento (simbolo : list N) (* Error(`Elemento no reconocido: ${simbolo}`) *)
| ErrorValidacion (causa : option error)
                                   (* Error(validacion.error), thrown by calcularEstequiometria *)
| ErrorElementos (invalidos : list (list N))
                                   (* 'Elemento(s) no reconocido(s): ...' *)
| ErrorNoBalanceada                (* Error('La ecuación no está balanceada.') *)
| ErrorSinReactivo                 (* 'La ecuación debe tener al menos un reactivo.' *)
| ErrorSinProducto                 (* 'La ecuación debe tener al menos un producto.' *)
| TypeError                        (* property access on undefined or null *)
| SinCombustible.                  (* the loop bound of the model ran out; never happens,
                                      see [parsearFormula_termina] *)

Inductive salida (A : Type) : Type :=
| Ok (a : A)
| Lanza (e : error).

Arguments Ok {A} a.
Arguments Lanza {A} e.

Definition ligar {A B : Type} (r : salida A) (k : A -> salida B) : salida B :=
  match r with
  | Ok a => k a
  | Lanza e => Lanza e
  end.

Notation "x <- r ;; k" := (ligar r (fun x => k))
  (at level 61, r at next level, right associativity).

Fixpoint mapM {A B : Type} (f : A -> salida B) (l : list A) : salida (list B) :=
  match l with
  | [] => Ok []
  | a :: l' => b <- f a ;; bs <- mapM f l' ;; Ok (b :: bs)
  end.

(** ** Strings as lists of UTF-16 code units *)

Module Cadena.

Abbreviation unidad := N (only parsing).
Abbreviation cadena := (list N) (only parsing).

(** A literal of ASCII characters as a JavaScript string. *)
Definition js (s : string) : cadena :=
  List.map N_of_ascii (list_ascii_of_string s).

Definition eqb (a b : cadena) : bool :=
  if list_eq_dec N.eq_dec a b then true else false.

(** The character classes of the regular expressions [/\d/],
    [/[A-Z]/] and [/[a-z]/]. *)
Definition esDigito (c : unidad) : bool := ((48 <=? c) && (c <=? 57))%N.
Definition esMayuscula (c : unidad) : bool := ((65 <=? c) && (c <=? 90))%N.
Definition esMinuscula (c : unidad) : bool := ((97 <=? c) && (c <=? 122))%N.

(** White space and line terminators, the characters
    [String.prototype.trim] removes. *)
Definition esBlanco (c : unidad) : bool :=
  ((9 <=? c) && (c <=? 13) || (c =? 32) || (c =? 160) || (c =? 5760)
   || (8192 <=? c) && (c <=? 8202) || (c =? 8232) || (c =? 8233)
   || (c =? 8239) || (c =? 8287) || (c =? 12288) || (c =? 65279))%N.

(** [leer p s]: the longest prefix of [s] whose characters satisfy
    [p], and the rest: the loops
    [while (i < s.length && p(s[i])) { acc += s[i]; i++; }]. *)
Fixpoint leer (p : unidad -> bool) (s : cadena) : cadena * cadena :=
  match s with
  | [] => ([], [])
  | c :: s' =>
      if p c then let (tok, resto) := leer p s' in (c :: tok, resto)
      else ([], s)
  end.

Fixpoint quitarIzq (s : cadena) : cadena :=
  match s with
  | [] => []
  | c :: s' => if esBlanco c then quitarIzq s' else s
  end.

Definition trim (s : cadena) : cadena :=
  rev (quitarIzq (rev (quitarIzq s))).

(** [parseInt] on a run of decimal digits. *)
Definition valorDigito (c : unidad) : Z := Z.of_N c - 48.

Definition parseInt (ds : cadena) : Z :=
  fold_left (fun acc c => 10 * acc + valorDigito c)%Z ds 0%Z.

(** [digitos ? parseInt(digitos) : 1]: the empty string is falsy. *)
Definition enteroO1 (ds : cadena) : Z :=
  match ds with
  | [] => 1%Z
  | _ => parseInt ds
  end.

(** Code units of the separators. *)
Definition cMas : unidad := 43%N.        (* + *)
Definition cGuion : unidad := 45%N.      (* - *)
Definition cMayor : unidad := 62%N.      (* > *)
Definition cIgual : unidad := 61%N.      (* = *)
Definition cFlecha : unidad := 8594%N.   (* U+2192, rightwards arrow *)
Definition cAbre : unidad := 40%N.       (* ( *)
Definition cCierra : unidad := 41%N.     (* ) *)

(** [s.replace(/X/g, '->')] for a one-character pattern [X]. *)
Definition reemplazar (x : unidad) (s : cadena) : cadena :=
  flat_map (fun c => if (c =? x)%N then [cGuion; cMayor] else [c]) s.

(** [s.split('+')]. *)
Fixpoint splitMas (s : cadena) : list cadena :=
  match s with
  | [] => [[]]
  | c :: s' =>
      if (c =? cMas)%N then [] :: splitMas s'
      else match splitMas s' with
           | p :: ps => (c :: p) :: ps
           | [] => [[c]]
           end
  end.

(** [s.split('->')]. *)
Fixpoint splitFlecha (s : cadena) : list cadena :=
  match s with
  | [] => [[]]
  | c :: s' =>
      let seguir :=
        match splitFlecha s' with
        | p :: ps => (c :: p) :: ps
        | [] => [[c]]
        end in
      match s' with
      | d :: s'' =>
          if ((c =? cGuion) && (d =? cMayor))%N then [] :: splitFlecha s''
          else seguir
      | [] => seguir
      end
  end.

End Cadena.

Import Cadena.

(** ** Objects used as maps, in insertion order *)

Module Objeto.

Abbreviation objeto V := (list (list N * V)) (only parsing).

(** [o[k]]; [None] is [undefined]. *)
Fixpoint leerProp {V : Type} (k : cadena) (o : objeto V) : option V :=
  match o with
  | [] => None
  | (k', v) :: o' => if Cadena.eqb k k' then Some v else leerProp k o'
  end.

(** [o[k] = v]: an existing key keeps its place, a new key goes last. *)
Fixpoint ponerProp {V : Type} (k : cadena) (v : V) (o : objeto V) : objeto V :=
  match o with
  | [] => [(k, v)]
  | (k', v') :: o' =>
      if Cadena.eqb k k' then (k', v) :: o' else (k', v') :: ponerProp k v o'
  end.

(** [Object.keys(o)], the order of [for (const k in o)]. *)
Definition claves {V : Type} (o : objeto V) : list cadena := List.map fst o.

(** [if (o[k]) { o[k] += x; } else { o[k] = x; }] on integer counts:
    [undefined] and [0] are falsy. *)
Definition acumular (k : cadena) (x : Z) (o : objeto Z) : objeto Z :=
  match leerProp k o with
  | Some v => if (v =? 0)%Z then ponerProp k x o else ponerProp k (v + x)%Z o
  | None => ponerProp k x o
  end.

End Objeto.

Import Objeto.

(** ** Section 1 of quimica.js: formulas and equations *)

(** The state of the loop of [parsearFormula]: the object [resultado],
    and the array [pila].  [resultado] is the bottom frame of [pila]
    until an unmatched [')'] pops it; [enPila] records whether it is
    still there, and [pila] lists the frames above it, top first. *)
Record estado : Type := {
  resultado : objeto Z;
  enPila : bool;
  pila : list (objeto Z)
}.

Definition estadoInicial : estado :=
  {| resultado := []; enPila := true; pila := [] |}.

(** [pila[pila.length - 1]]; [None] is [undefined]. *)
Definition cima (st : estado) : option (objeto Z) :=
  match pila st with
  | g :: _ => Some g
  | [] => if enPila st then Some (resultado st) else None
  end.

(** The object on top of [pila] after it was mutated into [g]. *)
Definition ponerCima (g : objeto Z) (st : estado) : estado :=
  match pila st with
  | _ :: r => {| resultado := resultado st; enPila := enPila st; pila := g :: r |}
  | [] => if enPila st
          then {| resultado := g; enPila := true; pila := [] |}
          else st
  end.

(** [pila.push({})]. *)
Definition apilar (st : estado) : estado :=
  {| resultado := resultado st; enPila := enPila st; pila := [] :: pila st |}.

(** [pila.pop()]; popping an empty array gives [undefined]. *)
Definition sacar (st : estado) : option (objeto Z) * estado :=
  match pila st with
  | g :: r => (Some g, {| resultado := resultado st; enPila := enPila st; pila := r |})
  | [] => if enPila st
          then (Some (resultado st),
                {| resultado := resultado st; enPila := false; pila := [] |})
          else (None, st)
  end.

(** The body of the [')'] branch after the multiplier was read. *)
Definition cerrar (multiplicador : Z) (st : estado) : salida estado :=
  let (grupo, st') := sacar st in
  match grupo with
  | None => Ok st'
  | Some [] => Ok st'
  | Some ((k0, v0) :: g) =>
      match cima st' with
      | None => Lanza TypeError
      | Some grupoActual =>
          Ok (ponerCima
                (fold_left (fun actual kv => acumular (fst kv) (snd kv * multiplicador)%Z actual)
                           ((k0, v0) :: g) grupoActual)
                st')
      end
  end.

(** The end of the element branch: add the subscript to the top frame. *)
Definition agregar (elemento : cadena) (subindice : Z) (st : estado) : salida estado :=
  match cima st with
  | None => Lanza TypeError
  | Some grupoActual => Ok (ponerCima (acumular elemento subindice grupoActual) st)
  end.

(** The [while (i < formula.length)] loop on the text from index [i]
    on.  Each turn consumes at least one character, so a bound of
    [length s] turns is never reached. *)
Fixpoint bucle (n : nat) (s : cadena) (st : estado) : salida estado :=
  match s with
  | [] => Ok st
  | caracter :: s1 =>
      match n with
      | O => Lanza SinCombustible
      | S n' =>
          if (caracter =? cAbre)%N then bucle n' s1 (apilar st)
          else if (caracter =? cCierra)%N then
            let (multiplicador, s2) := leer esDigito s1 in
            st' <- cerrar (enteroO1 multiplicador) st ;;
            bucle n' s2 st'
          else if esMayuscula caracter then
            let (minusculas, s2) := leer esMinuscula s1 in
            let (subindice, s3) := leer esDigito s2 in
            st' <- agregar (caracter :: minusculas) (enteroO1 subindice) st ;;
            bucle n' s3 st'
          else bucle n' s1 st
      end
  end.

Definition parsearFormula (formula : cadena) : salida (objeto Z) :=
  st <- bucle (List.length formula) formula estadoInicial ;;
  Ok (resultado st).

Record Compuesto : Type := {
  coeficiente : Z;
  formula : cadena;
  elementos : objeto Z
}.

Definition parsearCompuesto (compuesto : cadena) : salida Compuesto :=
  let compuesto := trim compuesto in
  let (coef, resto) := leer esDigito compuesto in
  els <- parsearFormula resto ;;
  Ok {| coeficiente := enteroO1 coef; formula := resto; elementos := els |}.

Record Ecuacion : Type := {
  reactivos : list Compuesto;
  productos : list Compuesto
}.

Definition normalizar (ecuacion : cadena) : cadena :=
  reemplazar cIgual (reemplazar cFlecha ecuacion).

Definition parsearEcuacion (ecuacion : cadena) : salida Ecuacion :=
  match splitFlecha (normalizar ecuacion) with
  | [parte0; parte1] =>
      rs <- mapM parsearCompuesto (splitMas (trim parte0)) ;;
      ps <- mapM parsearCompuesto (splitMas (trim parte1)) ;;
      Ok {| reactivos := rs; productos := ps |}
  | _ => Lanza ErrorFlecha
  end.


(** ** JavaScript numbers *)

Module Numero.

Inductive numero : Type :=
| Fin (q : Q)
| PInf
| NInf
| NaN.

(** The infinity of the sign given by a comparison with zero;
    [0 * Infinity] and [0 / 0] are [NaN]. *)
Definition infinito (c : comparison) : numero :=
  match c with
  | Gt => PInf
  | Lt => NInf
  | Eq => NaN
  end.

Definition opuesto (a : numero) : numero :=
  match a with
  | Fin x => Fin (- x)
  | PInf => NInf
  | NInf => PInf
  | NaN => NaN
  end.

Definition mul (a b : numero) : numero :=
  match a, b with
  | NaN, _ | _, NaN => NaN
  | Fin x, Fin y => Fin (x * y)
  | Fin x, PInf | PInf, Fin x => infinito (x ?= 0)
  | Fin x, NInf | NInf, Fin x => infinito (0 ?= x)
  | PInf, PInf | NInf, NInf => PInf
  | PInf, NInf | NInf, PInf => NInf
  end.

(** Division; a zero divisor is the positive zero. *)
Definition div (a b : numero) : numero :=
  match a, b with
  | NaN, _ | _, NaN => NaN
  | Fin x, Fin y => if Qeq_bool y 0 then infinito (x ?= 0) else Fin (x / y)
  | Fin _, PInf | Fin _, NInf => Fin 0
  | PInf, Fin y => match y ?= 0 with Lt => NInf | _ => PInf end
  | NInf, Fin y => match y ?= 0 with Lt => PInf | _ => NInf end
  | _, _ => NaN
  end.

Definition add (a b : numero) : numero :=
  match a, b with
  | NaN, _ | _, NaN => NaN
  | Fin x, Fin y => Fin (x + y)
  | PInf, NInf | NInf, PInf => NaN
  | PInf, _ | _, PInf => PInf
  | NInf, _ | _, NInf => NInf
  end.

Definition sub (a b : numero) : numero := add a (opuesto b).

(** [a < b]. *)
Definition lt (a b : numero) : bool :=
  match a, b with
  | Fin x, Fin y => match x ?= y with Lt => true | _ => false end
  | NInf, Fin _ | NInf, PInf | Fin _, PInf => true
  | _, _ => false
  end.

(** [a === 0]. *)
Definition esCero (a : numero) : bool :=
  match a with
  | Fin x => Qeq_bool x 0
  | _ => false
  end.

(** Truthiness of a number: [0] and [NaN] are falsy. *)
Definition verdadero (a : numero) : bool :=
  match a with
  | Fin x => negb (Qeq_bool x 0)
  | NaN => false
  | _ => true
  end.

(** The same number: rationals up to [Qeq]. *)
Definition igual (a b : numero) : Prop :=
  match a, b with
  | Fin x, Fin y => x == y
  | PInf, PInf | NInf, NInf | NaN, NaN => True
  | _, _ => False
  end.

(** A value read from a property that may be absent; [None] is
    [undefined], which arithmetic turns into [NaN]. *)
Definition valor := option numero.

Definition aNumero (v : valor) : numero :=
  match v with
  | Some a => a
  | None => NaN
  end.

Definition deZ (z : Z) : numero := Fin (inject_Z z).

End Numero.

Import Numero.

(** ** The Element Table *)

Record Elemento : Type := {
  masaAtomica : Q;
  nombre : cadena
}.

(** ** Records of the stoichiometry engine *)

(** [{ reactivos, productos, balanceado }] of one element. *)
Record Detalle : Type := {
  de_reactivos : Z;
  de_productos : Z;
  de_balanceado : bool
}.

Record Balance : Type := {
  balanceada : bool;
  detalles : objeto Detalle
}.

Record ValidacionElementos : Type := {
  ve_valida : bool;
  elementosInvalidos : list cadena
}.

Record ValidacionEcuacion : Type := {
  valida : bool;
  mensaje : option error      (* the [error] property; [None] is [null] *)
}.

(** A reactant as the caller gives it: [{ formula, masa?, moles?, pureza? }]. *)
Record DatoReactivo : Type := {
  dr_formula : cadena;
  dr_masa : valor;
  dr_moles : valor;
  dr_pureza : valor
}.

(** A reactant as [encontrarReactivoLimitante] and [calcularExceso]
    read it: [{ formula, masaInicial, moles, pureza }]. *)
Record DatoMoles : Type := {
  dm_formula : cadena;
  dm_masaInicial : valor;
  dm_moles : valor;
  dm_pureza : valor
}.

(** An entry of [molesEfectivos]: [{ formula, moles, coeficiente }]. *)
Record Efectivo : Type := {
  ef_formula : cadena;
  ef_moles : numero;
  ef_coeficiente : Z
}.

(** [{ formula, moles, proporcion }]. *)
Record Limitante : Type := {
  li_formula : cadena;
  li_moles : numero;
  li_proporcion : numero
}.

Record Exceso : Type := {
  ex_formula : cadena;
  ex_molesIniciales : numero;
  ex_molesUsados : numero;
  ex_molesSobrantes : numero;
  ex_masaSobrante : numero
}.

(** [{ formula, coeficiente, molesTeoricoS, masaTeorica }]. *)
Record ProductoTeorico : Type := {
  pt_formula : cadena;
  pt_coeficiente : Z;
  pt_molesTeoricoS : numero;
  pt_masaTeorica : numero
}.

(** [{ formula, masaReal?, molesReales? }]. *)
Record ProductoReal : Type := {
  pr_formula : cadena;
  masaReal : valor;
  molesReales : valor
}.

Record ResLimitante : Type := {
  rl_formula : cadena;
  rl_masaMolar : Q;
  rl_molesUsados : numero
}.

Record ResExceso : Type := {
  re_formula : cadena;
  re_masaMolar : Q;
  re_molesIniciales : numero;
  re_molesUsados : numero;
  re_molesSobrantes : numero;
  re_masaSobrante : numero
}.

Record ResProducto : Type := {
  rp_formula : cadena;
  rp_masaMolar : Q;
  rp_molesTeoricos : numero;
  rp_masaTeorica : numero
}.

Record Estequiometria : Type := {
  ecuacionValida : bool;
  es_balanceada : bool;
  reactivoLimitante : ResLimitante;
  reactivosEnExceso : list ResExceso;
  es_productos : list ResProducto;
  porcentajeRendimiento : valor   (* [None] is [null] *)
}.

Section Quimica.

(** The Element Table [ELEMENTOS] is a global of another file of the
    program; the functions below read it and never write it. *)
Variable ELEMENTOS : cadena -> option Elemento.

(** ** Section 2 of quimica.js: balance and validation *)

(** The inner loop of [contarAtomos] for one compound. *)
Definition contarCompuesto (conteo : objeto Z) (compuesto : Compuesto) : objeto Z :=
  fold_left
    (fun conteo kv => acumular (fst kv) (snd kv * coeficiente compuesto)%Z conteo)
    (elementos compuesto) conteo.

Definition contarAtomos (compuestos : list Compuesto) : objeto Z :=
  fold_left contarCompuesto compuestos [].

(** [new Set([...a, ...b])]: the first occurrence of each key, in order. *)
Definition conjunto (l : list cadena) : list cadena :=
  fold_left (fun vistos k => if existsb (Cadena.eqb k) vistos then vistos else vistos ++ [k])
            l [].

(** [atomos[elemento] || 0]. *)
Definition cuenta (atomos : objeto Z) (elemento : cadena) : Z :=
  match leerProp elemento atomos with
  | Some v => v
  | None => 0%Z
  end.

(** One turn of the loop of [verificarBalance]. *)
Definition pasoBalance (atomosReactivos atomosProductos : objeto Z)
           (acc : Balance) (elemento : cadena) : Balance :=
  let enReactivos := cuenta atomosReactivos elemento in
  let enProductos := cuenta atomosProductos elemento in
  {| balanceada := if (enReactivos =? enProductos)%Z then balanceada acc else false;
     detalles := ponerProp elemento
                   {| de_reactivos := enReactivos;
                      de_productos := enProductos;
                      de_balanceado := (enReactivos =? enProductos)%Z |}
                   (detalles acc) |}.

Definition verificarBalance (ecuacion : cadena) : salida Balance :=
  parseada <- parsearEcuacion ecuacion ;;
  let atomosReactivos := contarAtomos (reactivos parseada) in
  let atomosProductos := contarAtomos (productos parseada) in
  let elems := conjunto (claves atomosReactivos ++ claves atomosProductos) in
  Ok (fold_left (pasoBalance atomosReactivos atomosProductos) elems
                {| balanceada := true; detalles := [] |}).

(** [!ELEMENTOS[simbolo]]. *)
Definition desconocido (simbolo : cadena) : bool :=
  match ELEMENTOS simbolo with
  | Some _ => false
  | None => true
  end.

Definition validarElementos (formula : cadena) : salida ValidacionElementos :=
  elems <- parsearFormula formula ;;
  let invalidos := filter desconocido (claves elems) in
  Ok {| ve_valida := match invalidos with [] => true | _ => false end;
        elementosInvalidos := invalidos |}.

(** The [for] loop of [validarEcuacion]. *)
Fixpoint validarCompuestos (compuestos : list Compuesto) : salida ValidacionEcuacion :=
  match compuestos with
  | [] => Ok {| valida := true; mensaje := None |}
  | compuesto :: resto =>
      validacion <- validarElementos (formula compuesto) ;;
      if ve_valida validacion then validarCompuestos resto
      else Ok {| valida := false;
                 mensaje := Some (ErrorElementos (elementosInvalidos validacion)) |}
  end.

Definition validarEcuacion (ecuacion : cadena) : ValidacionEcuacion :=
  let intento :=
    parseada <- parsearEcuacion ecuacion ;;
    if (List.length (reactivos parseada) =? 0)%nat
    then Ok {| valida := false; mensaje := Some ErrorSinReactivo |}
    else if (List.length (productos parseada) =? 0)%nat
    then Ok {| valida := false; mensaje := Some ErrorSinProducto |}
    else validarCompuestos (reactivos parseada ++ productos parseada) in
  match intento with
  | Ok v => v
  | Lanza e => {| valida := false; mensaje := Some e |}   (* catch *)
  end.

(** ** Section 3 of quimica.js: molar mass and conversions *)

(** The loop of [calcularMasaMolar] over the keys of [elementos]. *)
Fixpoint sumarMasas (elems : objeto Z) (masaTotal : Q) : salida Q :=
  match elems with
  | [] => Ok masaTotal
  | (simbolo, cantidad) :: resto =>
      match ELEMENTOS simbolo with
      | None => Lanza (ErrorElemento simbolo)
      | Some e => sumarMasas resto (masaTotal + masaAtomica e * inject_Z cantidad)
      end
  end.

Definition calcularMasaMolar (formula : cadena) : salida Q :=
  elems <- parsearFormula formula ;;
  sumarMasas elems 0.

Definition masaAMoles (masa : numero) (formula : cadena) : salida numero :=
  masaMolar <- calcularMasaMolar formula ;;
  Ok (div masa (Fin masaMolar)).

Definition molesAMasa (moles : numero) (formula : cadena) : salida numero :=
  masaMolar <- calcularMasaMolar formula ;;
  Ok (mul moles (Fin masaMolar)).

(** ** Section 4 of quimica.js: stoichiometry *)

(** [parseada.reactivos.find(r => r.formula === f)]. *)
Definition buscarReactivo (parseada : Ecuacion) (f : cadena) : option Compuesto :=
  find (fun r => Cadena.eqb (formula r) f) (reactivos parseada).

(** [dato.moles * (dato.pureza / 100)]. *)
Definition molesEfectivosDe (dato : DatoMoles) : numero :=
  mul (aNumero (dm_moles dato)) (div (aNumero (dm_pureza dato)) (deZ 100)).

(** [buscarReactivo(...)?.coeficiente || 1]: no match and a zero
    coefficient both give 1. *)
Definition coeficienteO1 (parseada : Ecuacion) (f : cadena) : Z :=
  match buscarReactivo parseada f with
  | Some r => if (coeficiente r =? 0)%Z then 1%Z else coeficiente r
  | None => 1%Z
  end.

Definition efectivo (parseada : Ecuacion) (dato : DatoMoles) : Efectivo :=
  {| ef_formula := dm_formula dato;
     ef_moles := molesEfectivosDe dato;
     ef_coeficiente := coeficienteO1 parseada (dm_formula dato) |}.

Definition proporcionDe (reactivo : Efectivo) : numero :=
  div (ef_moles reactivo) (deZ (ef_coeficiente reactivo)).

(** One turn of the loop over [molesEfectivos]; the state is
    [(limitante, menorProporcion)], [None] being [null]. *)
Definition pasoLimitante (acc : option Efectivo * numero) (reactivo : Efectivo)
  : option Efectivo * numero :=
  let proporcion := proporcionDe reactivo in
  if lt proporcion (snd acc) then (Some reactivo, proporcion) else acc.

Definition encontrarReactivoLimitante (ecuacion : cadena) (datosReactivos : list DatoMoles)
  : salida Limitante :=
  parseada <- parsearEcuacion ecuacion ;;
  let molesEfectivos := List.map (efectivo parseada) datosReactivos in
  let (limitante, menorProporcion) :=
    fold_left pasoLimitante molesEfectivos (None, PInf) in
  match limitante with
  | None => Lanza TypeError      (* limitante.formula with limitante null *)
  | Some l => Ok {| li_formula := ef_formula l;
                    li_moles := ef_moles l;
                    li_proporcion := menorProporcion |}
  end.

(** The loop of [calcularExceso]. *)
Fixpoint excesosDe (parseada : Ecuacion) (limitante : Limitante)
         (datosReactivos : list DatoMoles) : salida (list Exceso) :=
  match datosReactivos with
  | [] => Ok []
  | dato :: resto =>
      if Cadena.eqb (dm_formula dato) (li_formula limitante)
      then excesosDe parseada limitante resto
      else match buscarReactivo parseada (dm_formula dato) with
           | None => excesosDe parseada limitante resto
           | Some reactivo =>
               let molesEfectivos := molesEfectivosDe dato in
               let molesNecesarios :=
                 mul (li_proporcion limitante) (deZ (coeficiente reactivo)) in
               let molesSobrantes := sub molesEfectivos molesNecesarios in
               masaSobrante <- molesAMasa molesSobrantes (dm_formula dato) ;;
               excesos <- excesosDe parseada limitante resto ;;
               Ok ({| ex_formula := dm_formula dato;
                      ex_molesIniciales := molesEfectivos;
                      ex_molesUsados := molesNecesarios;
                      ex_molesSobrantes := molesSobrantes;
                      ex_masaSobrante := masaSobrante |} :: excesos)
           end
  end.

Definition calcularExceso (ecuacion : cadena) (datosReactivos : list DatoMoles)
           (limitante : Limitante) : salida (list Exceso) :=
  parseada <- parsearEcuacion ecuacion ;;
  excesosDe parseada limitante datosReactivos.

Definition teoricoDe (limitante : Limitante) (producto : Compuesto)
  : salida ProductoTeorico :=
  let moles := mul (li_proporcion limitante) (deZ (coeficiente producto)) in
  masa <- molesAMasa moles (formula producto) ;;
  Ok {| pt_formula := formula producto;
        pt_coeficiente := coeficiente producto;
        pt_molesTeoricoS := moles;
        pt_masaTeorica := masa |}.

Definition calcularRendimientoTeorico (ecuacion : cadena) (limitante : Limitante)
  : salida (list ProductoTeorico) :=
  parseada <- parsearEcuacion ecuacion ;;
  mapM (teoricoDe limitante) (productos parseada).

Definition calcularPorcentajeRendimiento (rendimientoReal rendimientoTeorico : numero)
  : numero :=
  if esCero rendimientoTeorico then deZ 0
  else mul (div rendimientoReal rendimientoTeorico) (deZ 100).

(** [dato.pureza || 100] and the like. *)
Definition oSiFalso (v : valor) (defecto : numero) : numero :=
  match v with
  | Some a => if verdadero a then a else defecto
  | None => defecto
  end.

(** The callback of [datosReactivos.map] in [calcularEstequiometria]. *)
Definition conMoles (dato : DatoReactivo) : salida DatoMoles :=
  moles <- match dr_masa dato, dr_moles dato with
           | Some masa, None =>
               m <- masaAMoles masa (dr_formula dato) ;; Ok (Some m)
           | _, _ => Ok (dr_moles dato)
           end ;;
  masaInicial <- match dr_masa dato with
                 | Some masa =>
                     if verdadero masa then Ok masa
                     else molesAMasa (aNumero moles) (dr_formula dato)
                 | None => molesAMasa (aNumero moles) (dr_formula dato)
                 end ;;
  Ok {| dm_formula := dr_formula dato;
        dm_masaInicial := Some masaInicial;
        dm_moles := moles;
        dm_pureza := Some (oSiFalso (dr_pureza dato) (deZ 100)) |}.

(** The percent-yield block of [calcularEstequiometria]. *)
Definition rendimientoDe (productosTeoricos : list ProductoTeorico)
           (datosProductoReal : option ProductoReal) : salida valor :=
  match datosProductoReal with
  | None => Ok None
  | Some real =>
      match find (fun p => Cadena.eqb (pt_formula p) (pr_formula real))
                 productosTeoricos with
      | None => Ok None
      | Some productoTeorico =>
          masa <- match molesReales real with
                  | Some moles =>
                      m <- molesAMasa moles (pr_formula real) ;; Ok (Some m)
                  | None => Ok (masaReal real)
                  end ;;
          Ok (Some (calcularPorcentajeRendimiento
                      (aNumero masa) (pt_masaTeorica productoTeorico)))
      end
  end.

Definition resExceso (e : Exceso) : salida ResExceso :=
  masaMolar <- calcularMasaMolar (ex_formula e) ;;
  Ok {| re_formula := ex_formula e;
        re_masaMolar := masaMolar;
        re_molesIniciales := ex_molesIniciales e;
        re_molesUsados := ex_molesUsados e;
        re_molesSobrantes := ex_molesSobrantes e;
        re_masaSobrante := ex_masaSobrante e |}.

Definition resProducto (p : ProductoTeorico) : salida ResProducto :=
  masaMolar <- calcularMasaMolar (pt_formula p) ;;
  Ok {| rp_formula := pt_formula p;
        rp_masaMolar := masaMolar;
        rp_molesTeoricos := pt_molesTeoricoS p;
        rp_masaTeorica := pt_masaTeorica p |}.

Definition calcularEstequiometria (ecuacion : cadena)
           (datosReactivos : list DatoReactivo)
           (datosProductoReal : option ProductoReal) : salida Estequiometria :=
  let validacion := validarEcuacion ecuacion in
  if negb (valida validacion)
  then Lanza (ErrorValidacion (mensaje validacion))
  else
    balance <- verificarBalance ecuacion ;;
    if negb (balanceada balance) then Lanza ErrorNoBalanceada
    else
      reactivosConMoles <- mapM conMoles datosReactivos ;;
      limitante <- encontrarReactivoLimitante ecuacion reactivosConMoles ;;
      excesos <- calcularExceso ecuacion reactivosConMoles limitante ;;
      productosTeoricos <- calcularRendimientoTeorico ecuacion limitante ;;
      porcentaje <- rendimientoDe productosTeoricos datosProductoReal ;;
      masaMolarLimitante <- calcularMasaMolar (li_formula limitante) ;;
      enExceso <- mapM resExceso excesos ;;
      prods <- mapM resProducto productosTeoricos ;;
      Ok {| ecuacionValida := true;
            es_balanceada := true;
            reactivoLimitante :=
              {| rl_formula := li_formula limitante;
                 rl_masaMolar := masaMolarLimitante;
                 rl_molesUsados := li_moles limitante |};
            reactivosEnExceso := enExceso;
            es_productos := prods;
            porcentajeRendimiento := porcentaje |}.

End Quimica.

(** ** Section 5 of quimica.js: utilities *)

(** [formula.replace(/(\d+)/g, '<sub>$1</sub>')]: every maximal run
    of digits is put between the two tags.  [dentro] tells whether
    the character before was a digit of the run being replaced. *)
Fixpoint formulaAHtmlDesde (dentro : bool) (s : cadena) : cadena :=
  match s with
  | [] => if dentro then js "</sub>" else []
  | c :: s' =>
      if esDigito c
      then (if dentro then [] else js "<sub>") ++ c :: formulaAHtmlDesde true s'
      else (if dentro then js "</sub>" else []) ++ c :: formulaAHtmlDesde false s'
  end.

Definition formulaAHtml (formula : cadena) : cadena :=
  formulaAHtmlDesde false formula.

(** ** A sample Element Table *)

(** Modelled from the spec: the Element Table [ELEMENTOS] (symbol to
    atomic mass and name) is not among the sources; this is a sample
    of it with the two elements the worked scenarios of the
    specification use, hydrogen and oxygen, at the masses that give
    water 18.015 g/mol. *)
Definition tablaEjemplo (simbolo : cadena) : option Elemento :=
  if Cadena.eqb simbolo (js "H")
  then Some {| masaAtomica := 1008 # 1000; nombre := js "Hidrogeno" |}
  else if Cadena.eqb simbolo (js "O")
  then Some {| masaAtomica := 15999 # 1000; nombre := js "Oxigeno" |}
  else None.

(** A reactant given in moles at a purity of 100. *)
Definition enMoles (f : string) (n : Q) : DatoReactivo :=
  {| dr_formula := js f; dr_masa := None; dr_moles := Some (Fin n);
     dr_pureza := Some (deZ 100) |}.

(** A reactant of [encontrarReactivoLimitante] given in moles at a
    purity of 100. *)
Definition molesPuros (f : string) (n : Q) : DatoMoles :=
  {| dm_formula := js f; dm_masaInicial := None; dm_moles := Some (Fin n);
     dm_pureza := Some (deZ 100) |}.

(** ** Reference notions the properties are stated with *)

(** The number of occurrences of the separator [->] in a text, read
    from left to right. *)
Fixpoint contarFlechas (s : cadena) : nat :=
  match s with
  | [] => O
  | c :: s' =>
      match s' with
      | d :: s'' =>
          if ((c =? cGuion) && (d =? cMayor))%N then S (contarFlechas s'')
          else contarFlechas s'
      | [] => O
      end
  end.

(** The number of reaction arrows of an equation text as written:
    every [U+2192], every [=] and every [->]. *)
Definition contarSeparadores (s : cadena) : nat :=
  (count_occ N.eq_dec s cFlecha + count_occ N.eq_dec s cIgual + contarFlechas s)%nat.


(** An element is present on a side when a compound of it holds it. *)
Definition presente (elemento : cadena) (compuestos : list Compuesto) : Prop :=
  exists c, In c compuestos /\ In elemento (claves (elementos c)).

(** The ratio of a reactant: its effective moles over its coefficient
    in the equation, the coefficient being 1 when no reactant of the
    equation has the formula, or when the one that has it is written
    with the coefficient 0. *)
Definition razon (parseada : Ecuacion) (dato : DatoMoles) : numero :=
  div (molesEfectivosDe dato) (deZ (coeficienteO1 parseada (dm_formula dato))).




(** What holds of [(limitante, menorProporcion)] once the loop of
    [encontrarReactivoLimitante] has gone over the reactants [vistos]. *)
Definition invLimitante (parseada : Ecuacion) (vistos : list DatoMoles)
           (acc : option Efectivo * numero) : Prop :=
  (forall d', In d' vistos -> lt (razon parseada d') (snd acc) = false) /\
  match fst acc with
  | None => snd acc = PInf
  | Some ef =>
      exists i d,
        nth_error vistos i = Some d /\
        ef = efectivo parseada d /\
        snd acc = razon parseada d /\
        lt (snd acc) PInf = true /\
        forall j d', (j < i)%nat -> nth_error vistos j = Some d' ->
                     ~ igual (razon parseada d') (razon parseada d)
  end.

(** A formula text without parentheses. *)
Definition sinParentesis (f : cadena) : Prop :=
  Forall (fun c => c <> cAbre /\ c <> cCierra) f.

(** An element symbol: an uppercase letter followed by lowercase
    letters. *)
Definition esSimbolo (k : cadena) : Prop :=
  match k with
  | [] => False
  | c :: ms => esMayuscula c = true /\ Forall (fun x => esMinuscula x = true) ms
  end.

(** A formula text without a closing parenthesis. *)
Definition sinCierre (f : cadena) : Prop := Forall (fun c => c <> cCierra) f.

(** A text the formula parser finds nothing in: no uppercase letter
    and no parenthesis. *)
Definition sinFichas (f : cadena) : Prop :=
  Forall (fun c => esMayuscula c = false /\ c <> cAbre /\ c <> cCierra) f.

(** [partes.join(sep)]. *)
Fixpoint unir (sep : cadena) (partes : list cadena) : cadena :=
  match partes with
  | [] => []
  | [p] => p
  | p :: ps => p ++ sep ++ unir sep ps
  end.

(** The atomic mass the table gives a symbol, 0 for a symbol it lacks. *)
Definition masaAtomicaDe (tabla : cadena -> option Elemento) (k : cadena) : Q :=
  match tabla k with
  | Some e => masaAtomica e
  | None => 0
  end.

(** The mass of the atoms an object counts. *)
Fixpoint masaDe (tabla : cadena -> option Elemento) (o : objeto Z) : Q :=
  match o with
  | [] => 0
  | (k, v) :: o' => masaAtomicaDe tabla k * inject_Z v + masaDe tabla o'
  end.

(** The mass of a side of an equation: for each compound its
    coefficient times the molar mass listed for it in [masas]. *)
Fixpoint masaLado (compuestos : list Compuesto) (masas : list Q) : Q :=
  match compuestos, masas with
  | c :: cs, m :: ms => inject_Z (coeficiente c) * m + masaLado cs ms
  | _, _ => 0
  end.

(** The molar masses of the compounds of a side, in order. *)
Definition masasMolares (tabla : cadena -> option Elemento)
           (compuestos : list Compuesto) : salida (list Q) :=
  mapM (fun c => calcularMasaMolar tabla (formula c)) compuestos.

(** An object without the key [k]. *)
Definition quitarClave (k : cadena) (o : objeto Z) : objeto Z :=
  filter (fun kv => negb (Cadena.eqb (fst kv) k)) o.

(** Whether a reactant of the data is listed by [calcularExceso]: its
    formula is not that of the limiting reagent and is the formula of
    a reactant of the equation. *)
Definition enExcesoB (parseada : Ecuacion) (limitante : Limitante) (f : cadena) : bool :=
  negb (Cadena.eqb f (li_formula limitante)) &&
  existsb (fun r => Cadena.eqb (formula r) f) (reactivos parseada).


(** The text of a piece of markup: what is left when every tag, from
    a [<] to the next [>], is taken out.  [dentro] tells whether the
    reading is inside a tag. *)
Fixpoint textoDe (dentro : bool) (s : cadena) : cadena :=
  match s with
  | [] => []
  | c :: s' =>
      if dentro then textoDe (negb (c =? 62)%N) s'
      else if (c =? 60)%N then textoDe true s'
           else c :: textoDe false s'
  end.



(** ** Predicates of the proofs *)

(** A frame of the formula parser is well formed for [Pz] when its
    keys are pairwise distinct and its counts satisfy [Pz]. *)
Definition marcoBien (Pz : Z -> Prop) (o : objeto Z) : Prop :=
  NoDup (claves o) /\ Forall (fun kv => Pz (snd kv)) o.

Definition estadoBien (Pz : Z -> Prop) (st : estado) : Prop :=
  marcoBien Pz (resultado st) /\ Forall (marcoBien Pz) (pila st).


(** A text that is empty or starts with a character outside [p]: a
    token read with [p] stops before it. *)
Definition frontera (p : unidad -> bool) (resto : cadena) : Prop :=
  match resto with
  | [] => True
  | c :: _ => p c = false
  end.

(** Every key of every frame of the parser is an element symbol. *)
Definition estadoSimbolos (st : estado) : Prop :=
  Forall esSimbolo (claves (resultado st)) /\
  Forall (fun g => Forall esSimbolo (claves g)) (pila st).

(** * Properties *)

(** ** The worked cases of the specification *)

Example formula_sin_cerrar : parsearFormula (js "Ca(OH") = Ok [(js "Ca", 1%Z)].
Proof. reflexivity. Qed.

Example formula_cierre_de_mas : parsearFormula (js "H)") = Lanza TypeError.
Proof. reflexivity. Qed.

Example flecha_unicode :
  parsearEcuacion (js "2H2 + O2 " ++ [cFlecha] ++ js " 2H2O") =
  parsearEcuacion (js "2H2 + O2 -> 2H2O").
Proof. reflexivity. Qed.

Example dos_flechas : parsearEcuacion (js "H2 -> O2 = H2O") = Lanza ErrorFlecha.
Proof. reflexivity. Qed.

Example agua_balanceada :
  exists b, verificarBalance (js "2H2 + O2 -> 2H2O") = Ok b /\ balanceada b = true.
Proof. eexists. split; reflexivity. Qed.

Example elemento_desconocido :
  validarEcuacion tablaEjemplo (js "Xx2 -> H2O") =
  {| valida := false; mensaje := Some (ErrorElementos [js "Xx"]) |}.
Proof. reflexivity. Qed.

Example validar_no_mira_el_balance :
  valida (validarEcuacion tablaEjemplo (js "H2O -> H2 + O2")) = true.
Proof. reflexivity. Qed.

(** Scenario 1: 4 mol of H2 and 1 mol of O2 give O2 as limiting
    reagent and 2 mol, 36.03 g, of water. *)
Example escenario_1 :
  exists res p,
    calcularEstequiometria tablaEjemplo (js "2H2 + O2 -> 2H2O")
                           [enMoles "H2" 4; enMoles "O2" 1] None = Ok res /\
    rl_formula (reactivoLimitante res) = js "O2" /\
    es_productos res = [p] /\
    igual (rp_molesTeoricos p) (Fin 2) /\
    igual (rp_masaTeorica p) (Fin (3603 # 100)) /\
    porcentajeRendimiento res = None.
Proof.
  do 2 eexists. repeat split; try reflexivity; vm_compute; reflexivity.
Qed.

Example ecuacion_no_balanceada :
  calcularEstequiometria tablaEjemplo (js "H2 + O2 -> H2O")
                         [enMoles "H2" 4; enMoles "O2" 1] None =
  Lanza ErrorNoBalanceada.
Proof. reflexivity. Qed.

(** ** Strings *)

Lemma eqb_eq (a b : cadena) : Cadena.eqb a b = true <-> a = b.
Proof.
  unfold Cadena.eqb. destruct (list_eq_dec N.eq_dec a b); split; congruence.
Qed.

Lemma eqb_refl (a : cadena) : Cadena.eqb a a = true.
Proof. apply eqb_eq. reflexivity. Qed.

Lemma eqb_neq (a b : cadena) : Cadena.eqb a b = false <-> a <> b.
Proof.
  unfold Cadena.eqb. destruct (list_eq_dec N.eq_dec a b); split; congruence.
Qed.

Lemma eqb_sym (a b : cadena) : Cadena.eqb a b = Cadena.eqb b a.
Proof.
  destruct (Cadena.eqb b a) eqn:E.
  - apply eqb_eq in E. subst. apply eqb_refl.
  - apply eqb_neq in E. apply eqb_neq. congruence.
Qed.

Lemma leer_partes (p : unidad -> bool) (s : cadena) :
  s = fst (leer p s) ++ snd (leer p s).
Proof.
  induction s as [|c s IH]; simpl; [reflexivity|].
  destruct (p c); [|reflexivity].
  destruct (leer p s) as [tok resto]. simpl in *. now rewrite <- IH.
Qed.

Lemma leer_forall (p : unidad -> bool) (s : cadena) :
  Forall (fun c => p c = true) (fst (leer p s)).
Proof.
  induction s as [|c s IH]; simpl; [constructor|].
  destruct (p c) eqn:E; [|constructor].
  destruct (leer p s) as [tok resto]. simpl in *. now constructor.
Qed.

Lemma leer_resto_length (p : unidad -> bool) (s : cadena) :
  (List.length (snd (leer p s)) <= List.length s)%nat.
Proof.
  rewrite (leer_partes p s) at 2. rewrite length_app. lia.
Qed.


(** ** The formula parser always comes to an end *)

Lemma cerrar_error (m : Z) (st : estado) (e : error) :
  cerrar m st = Lanza e -> e = TypeError.
Proof.
  unfold cerrar. destruct (sacar st) as [[[|[k0 v0] g]|] st']; try discriminate.
  destruct (cima st'); [discriminate|]. now intros [= <-].
Qed.

Lemma agregar_error (k : cadena) (x : Z) (st : estado) (e : error) :
  agregar k x st = Lanza e -> e = TypeError.
Proof.
  unfold agregar. destruct (cima st); [discriminate|]. now intros [= <-].
Qed.

Lemma bucle_error (n : nat) :
  forall (s : cadena) (st : estado) (e : error),
    (List.length s <= n)%nat -> bucle n s st = Lanza e -> e = TypeError.
Proof.
  induction n as [|n IH]; intros s st e Hn H.
  - destruct s; simpl in *; [discriminate|lia].
  - destruct s as [|c s1]; simpl in H; [discriminate|]. simpl in Hn.
    destruct (c =? cAbre)%N.
    { eapply IH; [|exact H]. lia. }
    destruct (c =? cCierra)%N.
    { pose proof (leer_resto_length esDigito s1) as L.
      destruct (leer esDigito s1) as [ds s2]. simpl in L.
      destruct (cerrar (enteroO1 ds) st) as [st'|e'] eqn:C; simpl in H.
      - eapply IH; [|exact H]. lia.
      - injection H as <-. eapply cerrar_error; eauto. }
    destruct (esMayuscula c).
    { pose proof (leer_resto_length esMinuscula s1) as L1.
      destruct (leer esMinuscula s1) as [ms s2]. simpl in L1.
      pose proof (leer_resto_length esDigito s2) as L2.
      destruct (leer esDigito s2) as [ds s3]. simpl in L2.
      destruct (agregar (c :: ms) (enteroO1 ds) st) as [st'|e'] eqn:C; simpl in H.
      - eapply IH; [|exact H]. lia.
      - injection H as <-. eapply agregar_error; eauto. }
    eapply IH; [|exact H]. lia.
Qed.

(** The only error [parsearFormula] throws is the [TypeError] of an
    unmatched [')']; in particular the loop bound of the model is
    never reached. *)
Lemma parsearFormula_error (f : cadena) (e : error) :
  parsearFormula f = Lanza e -> e = TypeError.
Proof.
  unfold parsearFormula.
  destruct (bucle (List.length f) f estadoInicial) eqn:B; simpl; [discriminate|].
  intros [= <-]. eapply bucle_error; [|exact B]. lia.
Qed.

Lemma parsearFormula_termina (f : cadena) :
  parsearFormula f <> Lanza SinCombustible.
Proof.
  intros H. apply parsearFormula_error in H. discriminate.
Qed.

Lemma parsearCompuesto_error (c : cadena) (e : error) :
  parsearCompuesto c = Lanza e -> e = TypeError.
Proof.
  unfold parsearCompuesto. destruct (leer esDigito (trim c)) as [coef resto].
  destruct (parsearFormula resto) eqn:P; simpl; [discriminate|].
  intros [= <-]. eapply parsearFormula_error; eauto.
Qed.

Lemma mapM_error {A B : Type} (f : A -> salida B) (P : error -> Prop) (l : list A) :
  (forall a e, f a = Lanza e -> P e) ->
  forall e, mapM f l = Lanza e -> P e.
Proof.
  intros Hf. induction l as [|a l IH]; simpl; intros e H; [discriminate|].
  destruct (f a) eqn:F; simpl in H.
  - destruct (mapM f l); simpl in H; [discriminate|]. injection H as <-. now apply IH.
  - injection H as <-. eapply Hf; eauto.
Qed.

Lemma mapM_length {A B : Type} (f : A -> salida B) (l : list A) (bs : list B) :
  mapM f l = Ok bs -> List.length bs = List.length l.
Proof.
  revert bs. induction l as [|a l IH]; simpl; intros bs H.
  - now injection H as <-.
  - destruct (f a); simpl in H; [|discriminate].
    destruct (mapM f l); simpl in H; [|discriminate].
    injection H as <-. simpl. f_equal. now apply IH.
Qed.

(** ** Objects *)

Lemma leerProp_ponerProp_mismo {V : Type} (k : cadena) (v : V) (o : objeto V) :
  leerProp k (ponerProp k v o) = Some v.
Proof.
  induction o as [|[k' v'] o IH]; simpl.
  - now rewrite eqb_refl.
  - destruct (Cadena.eqb k k') eqn:E; simpl; rewrite E; [reflexivity|exact IH].
Qed.

Lemma leerProp_ponerProp_otro {V : Type} (k k' : cadena) (v : V) (o : objeto V) :
  k' <> k -> leerProp k' (ponerProp k v o) = leerProp k' o.
Proof.
  intros Hk. induction o as [|[k1 v1] o IH]; simpl.
  - apply eqb_neq in Hk. now rewrite Hk.
  - destruct (Cadena.eqb k k1) eqn:E; simpl.
    + apply eqb_eq in E. subst k1. apply eqb_neq in Hk. now rewrite Hk.
    + destruct (Cadena.eqb k' k1); [reflexivity|exact IH].
Qed.

Lemma leerProp_None {V : Type} (k : cadena) (o : objeto V) :
  leerProp k o = None <-> ~ In k (claves o).
Proof.
  induction o as [|[k' v'] o IH]; simpl.
  - tauto.
  - destruct (Cadena.eqb k k') eqn:E.
    + apply eqb_eq in E. subst. split; [discriminate|]. intros H. exfalso. apply H. now left.
    + apply eqb_neq in E. rewrite IH. split.
      * intros H [H1|H1]; [congruence|tauto].
      * intros H H1. apply H. now right.
Qed.

Lemma leerProp_In {V : Type} (k : cadena) (v : V) (o : objeto V) :
  leerProp k o = Some v -> In (k, v) o.
Proof.
  induction o as [|[k' v'] o IH]; simpl; [discriminate|].
  destruct (Cadena.eqb k k') eqn:E.
  - apply eqb_eq in E. subst. intros [= ->]. now left.
  - intros H. right. now apply IH.
Qed.

Lemma In_leerProp {V : Type} (k : cadena) (v : V) (o : objeto V) :
  NoDup (claves o) -> In (k, v) o -> leerProp k o = Some v.
Proof.
  induction o as [|[k' v'] o IH]; simpl; [tauto|].
  intros Hnd [H|H].
  - injection H as -> ->. now rewrite eqb_refl.
  - inversion Hnd as [|? ? Hni Hnd']; subst.
    destruct (Cadena.eqb k k') eqn:E.
    + apply eqb_eq in E. subst. exfalso. apply Hni.
      change k' with (fst (k', v)). now apply in_map.
    + now apply IH.
Qed.

Lemma claves_ponerProp {V : Type} (k : cadena) (v : V) (o : objeto V) :
  claves (ponerProp k v o) =
  if existsb (Cadena.eqb k) (claves o) then claves o else claves o ++ [k].
Proof.
  induction o as [|[k' v'] o IH]; simpl; [reflexivity|].
  destruct (Cadena.eqb k k') eqn:E; simpl; [reflexivity|].
  unfold claves in *. rewrite IH.
  destruct (existsb (Cadena.eqb k) (List.map fst o)); reflexivity.
Qed.

Lemma existsb_eqb_In (k : cadena) (l : list cadena) :
  existsb (Cadena.eqb k) l = true <-> In k l.
Proof.
  rewrite existsb_exists. split.
  - intros [x [Hx E]]. apply eqb_eq in E. now subst.
  - intros H. exists k. split; [exact H|apply eqb_refl].
Qed.

Lemma existsb_eqb_notIn (k : cadena) (l : list cadena) :
  existsb (Cadena.eqb k) l = false <-> ~ In k l.
Proof.
  rewrite <- existsb_eqb_In. destruct (existsb (Cadena.eqb k) l); split; congruence.
Qed.

Lemma NoDup_snoc (k : cadena) (l : list cadena) :
  NoDup l -> ~ In k l -> NoDup (l ++ [k]).
Proof.
  intros Hl Hk. apply NoDup_app; [exact Hl|repeat constructor; simpl; tauto|].
  intros x Hx [<-|[]]. apply Hk, Hx.
Qed.

Lemma NoDup_claves_ponerProp {V : Type} (k : cadena) (v : V) (o : objeto V) :
  NoDup (claves o) -> NoDup (claves (ponerProp k v o)).
Proof.
  intros H. rewrite claves_ponerProp.
  destruct (existsb (Cadena.eqb k) (claves o)) eqn:E; [exact H|].
  apply NoDup_snoc; [exact H|]. now apply existsb_eqb_notIn.
Qed.

Lemma Forall_ponerProp {V : Type} (P : V -> Prop) (k : cadena) (v : V) (o : objeto V) :
  P v -> Forall (fun kv => P (snd kv)) o ->
  Forall (fun kv => P (snd kv)) (ponerProp k v o).
Proof.
  intros Hv. induction o as [|[k' v'] o IH]; simpl; intros H.
  - repeat constructor. exact Hv.
  - inversion H; subst. destruct (Cadena.eqb k k'); constructor; auto.
Qed.

Lemma claves_acumular (k : cadena) (x : Z) (o : objeto Z) :
  claves (acumular k x o) =
  if existsb (Cadena.eqb k) (claves o) then claves o else claves o ++ [k].
Proof.
  unfold acumular. destruct (leerProp k o) as [v|]; [destruct (v =? 0)%Z|];
    apply claves_ponerProp.
Qed.

(** What [acumular] leaves under a key: the old count, [0] when the
    key was absent, plus the amount for its own key. *)
Lemma leerProp_acumular (k k' : cadena) (x : Z) (o : objeto Z) :
  leerProp k' (acumular k x o) =
  if Cadena.eqb k' k
  then Some (match leerProp k o with Some v => v + x | None => x end)%Z
  else leerProp k' o.
Proof.
  unfold acumular. destruct (Cadena.eqb k' k) eqn:E.
  - apply eqb_eq in E. subst k'.
    destruct (leerProp k o) as [v|] eqn:L.
    + destruct (v =? 0)%Z eqn:Z0; rewrite leerProp_ponerProp_mismo; [|reflexivity].
      apply Z.eqb_eq in Z0. now subst.
    + apply leerProp_ponerProp_mismo.
  - apply eqb_neq in E.
    destruct (leerProp k o) as [v|]; [destruct (v =? 0)%Z|];
      now apply leerProp_ponerProp_otro.
Qed.

(** ** Invariants of the formula parser *)

Section InvarianteFormula.

(** [Pz] holds of every count a frame may hold, [D] of every
    character of the text. *)
Variable Pz : Z -> Prop.
Variable D : unidad -> Prop.
Hypothesis Pz_uno : Pz 1%Z.
Hypothesis Pz_suma : forall a b, Pz a -> Pz b -> Pz (a + b)%Z.
Hypothesis Pz_producto : forall a b, Pz a -> Pz b -> Pz (a * b)%Z.
Hypothesis Pz_digitos :
  forall ds, ds <> [] -> Forall (fun c => esDigito c = true) ds -> Forall D ds ->
             Pz (parseInt ds).

Lemma Pz_enteroO1 (ds : cadena) :
  Forall (fun c => esDigito c = true) ds -> Forall D ds -> Pz (enteroO1 ds).
Proof.
  destruct ds as [|d ds]; simpl; intros H1 H2; [exact Pz_uno|].
  apply Pz_digitos; [discriminate|exact H1|exact H2].
Qed.

Lemma marcoBien_acumular (k : cadena) (x : Z) (o : objeto Z) :
  Pz x -> marcoBien Pz o -> marcoBien Pz (acumular k x o).
Proof.
  intros Hx [Hnd Hall]. split.
  - rewrite claves_acumular.
    destruct (existsb (Cadena.eqb k) (claves o)) eqn:E; [exact Hnd|].
    apply NoDup_snoc; [exact Hnd|]. now apply existsb_eqb_notIn.
  - unfold acumular. destruct (leerProp k o) as [v|] eqn:L.
    + assert (Pz v) as Hv.
      { apply leerProp_In in L. rewrite Forall_forall in Hall. exact (Hall _ L). }
      destruct (v =? 0)%Z; apply Forall_ponerProp; auto.
    + apply Forall_ponerProp; auto.
Qed.

Lemma marcoBien_volcar (m : Z) (g actual : objeto Z) :
  Pz m -> Forall (fun kv => Pz (snd kv)) g -> marcoBien Pz actual ->
  marcoBien Pz (fold_left (fun a kv => acumular (fst kv) (snd kv * m)%Z a) g actual).
Proof.
  intros Hm. revert actual. induction g as [|[k v] g IH]; simpl; intros actual Hg Ha.
  - exact Ha.
  - inversion Hg; subst. apply IH; [assumption|].
    apply marcoBien_acumular; [|exact Ha]. apply Pz_producto; assumption.
Qed.

Lemma cima_bien (st : estado) (g : objeto Z) :
  estadoBien Pz st -> cima st = Some g -> marcoBien Pz g.
Proof.
  intros [Hr Hp]. unfold cima. destruct (pila st) as [|g' r].
  - destruct (enPila st); [|discriminate]. now intros [= <-].
  - intros [= <-]. now inversion Hp.
Qed.

Lemma ponerCima_bien (st : estado) (g : objeto Z) :
  estadoBien Pz st -> marcoBien Pz g -> estadoBien Pz (ponerCima g st).
Proof.
  intros [Hr Hp] Hg. unfold ponerCima, estadoBien. destruct (pila st) as [|g' r] eqn:E.
  - destruct (enPila st); simpl; [split; [exact Hg|constructor]|].
    rewrite E. split; [exact Hr|constructor].
  - simpl. split; [exact Hr|]. inversion Hp; subst. now constructor.
Qed.

Lemma sacar_bien (st st' : estado) (g : option (objeto Z)) :
  estadoBien Pz st -> sacar st = (g, st') ->
  estadoBien Pz st' /\ match g with Some o => marcoBien Pz o | None => True end.
Proof.
  intros [Hr Hp]. unfold sacar. destruct (pila st) as [|g' r] eqn:E.
  - destruct (enPila st); intros [= <- <-]; simpl.
    + split; [split; [exact Hr|constructor]|exact Hr].
    + split; [|exact I]. split; [exact Hr|]. rewrite E. constructor.
  - intros [= <- <-]. inversion Hp; subst. split; [split; assumption|assumption].
Qed.

Lemma cerrar_bien (m : Z) (st st' : estado) :
  Pz m -> estadoBien Pz st -> cerrar m st = Ok st' -> estadoBien Pz st'.
Proof.
  intros Hm Hst. unfold cerrar. destruct (sacar st) as [g st1] eqn:S1.
  destruct (sacar_bien Hst S1) as [H1 Hg].
  destruct g as [[|[k0 v0] g]|]; try (intros [= <-]; exact H1).
  destruct (cima st1) as [actual|] eqn:C; [|discriminate].
  intros [= <-]. apply ponerCima_bien; [exact H1|].
  apply (@marcoBien_volcar m ((k0, v0) :: g) actual);
    [exact Hm|apply Hg|eapply cima_bien; eauto].
Qed.

Lemma agregar_bien (k : cadena) (x : Z) (st st' : estado) :
  Pz x -> estadoBien Pz st -> agregar k x st = Ok st' -> estadoBien Pz st'.
Proof.
  intros Hx Hst. unfold agregar. destruct (cima st) as [actual|] eqn:C; [|discriminate].
  intros [= <-]. apply ponerCima_bien; [exact Hst|].
  apply marcoBien_acumular; [exact Hx|eapply cima_bien; eauto].
Qed.

Lemma leer_D (p : unidad -> bool) (s : cadena) :
  Forall D s -> Forall D (fst (leer p s)) /\ Forall D (snd (leer p s)).
Proof.
  intros H. rewrite (leer_partes p s) in H. now apply Forall_app in H.
Qed.

Lemma bucle_bien (n : nat) :
  forall (s : cadena) (st st' : estado),
    Forall D s -> estadoBien Pz st -> bucle n s st = Ok st' -> estadoBien Pz st'.
Proof.
  induction n as [|n IH]; intros s st st' HD Hst H.
  - destruct s; simpl in H; [|discriminate]. now injection H as <-.
  - destruct s as [|c s1]; simpl in H; [now injection H as <-|].
    inversion HD as [|? ? Hc HD1]; subst.
    destruct (c =? cAbre)%N.
    { eapply IH; [exact HD1| |exact H]. destruct Hst as [Hr Hp].
      split; [exact Hr|]. simpl. constructor; [|exact Hp]. split; constructor. }
    destruct (c =? cCierra)%N.
    { pose proof (leer_forall esDigito s1) as F.
      destruct (leer_D esDigito HD1) as [D1 D2].
      destruct (leer esDigito s1) as [ds s2]. simpl in *.
      destruct (cerrar (enteroO1 ds) st) as [st1|] eqn:C; simpl in H; [|discriminate].
      eapply IH; [exact D2| |exact H].
      eapply cerrar_bien; [|exact Hst|exact C]. now apply Pz_enteroO1. }
    destruct (esMayuscula c).
    { destruct (leer_D esMinuscula HD1) as [_ D2].
      destruct (leer esMinuscula s1) as [ms s2]. simpl in D2.
      pose proof (leer_forall esDigito s2) as F.
      destruct (leer_D esDigito D2) as [D3 D4].
      destruct (leer esDigito s2) as [ds s3]. simpl in *.
      destruct (agregar (c :: ms) (enteroO1 ds) st) as [st1|] eqn:C; simpl in H;
        [|discriminate].
      eapply IH; [exact D4| |exact H].
      eapply agregar_bien; [|exact Hst|exact C]. now apply Pz_enteroO1. }
    eapply IH; [exact HD1|exact Hst|exact H].
Qed.

Lemma parsearFormula_bien (f : cadena) (o : objeto Z) :
  Forall D f -> parsearFormula f = Ok o -> marcoBien Pz o.
Proof.
  intros HD. unfold parsearFormula.
  destruct (bucle (List.length f) f estadoInicial) as [st|] eqn:B; simpl; [|discriminate].
  intros [= <-]. eapply bucle_bien in B; [exact (proj1 B)|exact HD|].
  split; [split; constructor|constructor].
Qed.

End InvarianteFormula.

(** ** Counts, subscripts and coefficients *)

Lemma valorDigito_rango (c : unidad) :
  esDigito c = true -> (0 <= valorDigito c <= 9)%Z.
Proof.
  unfold esDigito, valorDigito. rewrite andb_true_iff, !N.leb_le. lia.
Qed.

Lemma parseInt_desde (ds : cadena) :
  forall acc : Z,
    Forall (fun c => esDigito c = true) ds -> (0 <= acc)%Z ->
    (acc <= fold_left (fun a c => 10 * a + valorDigito c) ds acc)%Z.
Proof.
  induction ds as [|d ds IH]; cbn [fold_left]; intros acc H Hacc; [lia|].
  inversion H as [|? ? Hd Hds]; subst. apply valorDigito_rango in Hd.
  specialize (IH (10 * acc + valorDigito d)%Z Hds). lia.
Qed.

Lemma parseInt_no_negativo (ds : cadena) :
  Forall (fun c => esDigito c = true) ds -> (0 <= parseInt ds)%Z.
Proof.
  intros H. unfold parseInt. now apply parseInt_desde.
Qed.




(** Every object [parsearFormula] returns has pairwise distinct keys
    and counts that are not negative. *)
Lemma parsearFormula_marco (f : cadena) (o : objeto Z) :
  parsearFormula f = Ok o -> marcoBien (fun z => 0 <= z)%Z o.
Proof.
  apply (@parsearFormula_bien (fun z => 0 <= z)%Z (fun _ => True)); try lia.
  - intros ds _ H _. now apply parseInt_no_negativo.
  - apply Forall_forall. auto.
Qed.


(** An element symbol alone stands for one atom. *)
Lemma leer_todo (p : unidad -> bool) (s : cadena) :
  Forall (fun c => p c = true) s -> leer p s = (s, []).
Proof.
  induction s as [|c s IH]; simpl; intros H; [reflexivity|].
  inversion H as [|? ? Hc Hs]; subst. rewrite Hc, (IH Hs). reflexivity.
Qed.


(** ** Splitting an equation at its arrow *)

Lemma contarFlechas_cons (c : unidad) (t : cadena) :
  contarFlechas (c :: t) =
  match t with
  | d :: t' => if ((c =? cGuion) && (d =? cMayor))%N then S (contarFlechas t')
               else contarFlechas t
  | [] => O
  end.
Proof. destruct t; reflexivity. Qed.

Lemma contarFlechas_otro (c : unidad) (t : cadena) :
  c <> cGuion -> contarFlechas (c :: t) = contarFlechas t.
Proof.
  intros Hc. rewrite contarFlechas_cons. destruct t as [|d t']; [reflexivity|].
  apply N.eqb_neq in Hc. now rewrite Hc.
Qed.

Lemma splitFlecha_cons (c : unidad) (t : cadena) :
  splitFlecha (c :: t) =
  match t with
  | d :: t' =>
      if ((c =? cGuion) && (d =? cMayor))%N then [] :: splitFlecha t'
      else match splitFlecha t with
           | p :: ps => (c :: p) :: ps
           | [] => [[c]]
           end
  | [] => [[c]]
  end.
Proof. destruct t; reflexivity. Qed.

Lemma splitFlecha_length_aux (n : nat) :
  forall s : cadena,
    (List.length s <= n)%nat ->
    List.length (splitFlecha s) = S (contarFlechas s).
Proof.
  induction n as [|n IH]; intros s Hn.
  - destruct s; [reflexivity|simpl in Hn; lia].
  - destruct s as [|c t]; [reflexivity|].
    rewrite splitFlecha_cons, contarFlechas_cons. simpl in Hn.
    destruct t as [|d t']; [reflexivity|]. simpl in Hn.
    destruct ((c =? cGuion) && (d =? cMayor))%N.
    + simpl. f_equal. apply IH. lia.
    + assert (List.length (splitFlecha (d :: t')) = S (contarFlechas (d :: t'))) as E
          by (apply IH; simpl; lia).
      destruct (splitFlecha (d :: t')); simpl in *; [discriminate|exact E].
Qed.

(** [split] cuts one more part than the text has separators. *)
Lemma splitFlecha_length (s : cadena) :
  List.length (splitFlecha s) = S (contarFlechas s).
Proof. now apply (@splitFlecha_length_aux (List.length s)). Qed.

Lemma reemplazar_cons (x c : unidad) (s : cadena) :
  reemplazar x (c :: s) =
  (if (c =? x)%N then [cGuion; cMayor] else [c]) ++ reemplazar x s.
Proof. reflexivity. Qed.

Lemma contarFlechas_reemplazar_aux (x : unidad) (n : nat) :
  x <> cGuion -> x <> cMayor ->
  forall s : cadena,
    (List.length s <= n)%nat ->
    contarFlechas (reemplazar x s) = (count_occ N.eq_dec s x + contarFlechas s)%nat.
Proof.
  intros Hg Hm. induction n as [|n IH]; intros s Hn.
  - destruct s; [reflexivity|simpl in Hn; lia].
  - destruct s as [|c t]; [reflexivity|]. simpl in Hn.
    rewrite reemplazar_cons. destruct (c =? x)%N eqn:Ecx.
    + apply N.eqb_eq in Ecx. subst c.
      rewrite count_occ_cons_eq by reflexivity.
      rewrite (contarFlechas_otro t Hg).
      change ([cGuion; cMayor] ++ reemplazar x t)
        with (cGuion :: cMayor :: reemplazar x t).
      rewrite contarFlechas_cons. simpl. rewrite IH by lia. reflexivity.
    + apply N.eqb_neq in Ecx.
      rewrite count_occ_cons_neq by congruence.
      change ([c] ++ reemplazar x t) with (c :: reemplazar x t).
      destruct (N.eq_dec c cGuion) as [->|Hc].
      * destruct t as [|d t'].
        { reflexivity. }
        rewrite reemplazar_cons. simpl in Hn. destruct (d =? x)%N eqn:Edx.
        { apply N.eqb_eq in Edx. subst d.
          change ([cGuion; cMayor] ++ reemplazar x t')
            with (cGuion :: cMayor :: reemplazar x t').
          rewrite (contarFlechas_cons cGuion (cGuion :: _)).
          change ((cGuion =? cGuion) && (cGuion =? cMayor))%N with false.
          cbv iota.
          rewrite (contarFlechas_cons cGuion (cMayor :: _)).
          change ((cGuion =? cGuion) && (cMayor =? cMayor))%N with true.
          cbv iota.
          rewrite (contarFlechas_cons cGuion (x :: t')).
          assert ((x =? cMayor)%N = false) as -> by now apply N.eqb_neq.
          rewrite andb_false_r.
          rewrite count_occ_cons_eq by reflexivity.
          rewrite (contarFlechas_otro t' Hg).
          rewrite IH by lia. reflexivity. }
        apply N.eqb_neq in Edx.
        change ([d] ++ reemplazar x t') with (d :: reemplazar x t').
        rewrite (contarFlechas_cons cGuion (d :: reemplazar x t')).
        rewrite (contarFlechas_cons cGuion (d :: t')).
        change (cGuion =? cGuion)%N with true. cbv beta iota. simpl andb.
        destruct (d =? cMayor)%N eqn:Edm.
        { rewrite count_occ_cons_neq by congruence. rewrite IH by lia. lia. }
        { change (d :: reemplazar x t') with ([d] ++ reemplazar x t').
          assert (reemplazar x (d :: t') = [d] ++ reemplazar x t') as <-.
          { rewrite reemplazar_cons.
            assert ((d =? x)%N = false) as -> by now apply N.eqb_neq.
            reflexivity. }
          apply IH. simpl. lia. }
      * rewrite (contarFlechas_otro _ Hc), (contarFlechas_otro _ Hc).
        apply IH. lia.
Qed.

Lemma contarFlechas_reemplazar (x : unidad) (s : cadena) :
  x <> cGuion -> x <> cMayor ->
  contarFlechas (reemplazar x s) = (count_occ N.eq_dec s x + contarFlechas s)%nat.
Proof.
  intros Hg Hm. now apply (@contarFlechas_reemplazar_aux x (List.length s)).
Qed.

Lemma count_occ_reemplazar (x y : unidad) (s : cadena) :
  y <> x -> y <> cGuion -> y <> cMayor ->
  count_occ N.eq_dec (reemplazar x s) y = count_occ N.eq_dec s y.
Proof.
  intros Hx Hg Hm. induction s as [|c s IH]; [reflexivity|].
  rewrite reemplazar_cons, count_occ_app, IH.
  destruct (c =? x)%N eqn:E.
  - apply N.eqb_eq in E. subst c.
    rewrite (count_occ_cons_neq _ s) by congruence.
    rewrite !count_occ_cons_neq by congruence. reflexivity.
  - destruct (N.eq_dec c y) as [->|Hc].
    + rewrite !count_occ_cons_eq by reflexivity. reflexivity.
    + rewrite !count_occ_cons_neq by congruence. reflexivity.
Qed.

(** The separators of the normalized text are the arrows of the
    text as written. *)
Lemma contarFlechas_normalizar (e : cadena) :
  contarFlechas (normalizar e) = contarSeparadores e.
Proof.
  unfold normalizar, contarSeparadores.
  rewrite contarFlechas_reemplazar by (unfold cIgual, cGuion, cMayor; lia).
  rewrite contarFlechas_reemplazar by (unfold cFlecha, cGuion, cMayor; lia).
  rewrite count_occ_reemplazar by (unfold cIgual, cFlecha, cGuion, cMayor; lia).
  lia.
Qed.

(** ** The equation parser and its arrow *)

Lemma mapM_parsearCompuesto_error (l : list cadena) (e : error) :
  mapM parsearCompuesto l = Lanza e -> e = TypeError.
Proof.
  apply (@mapM_error _ _ parsearCompuesto (fun e => e = TypeError)).
  exact parsearCompuesto_error.
Qed.

Lemma parsearEcuacion_error (ecuacion : cadena) (e : error) :
  parsearEcuacion ecuacion = Lanza e -> e = ErrorFlecha \/ e = TypeError.
Proof.
  unfold parsearEcuacion.
  destruct (splitFlecha (normalizar ecuacion)) as [|p0 [|p1 [|p2 l]]];
    try (intros [= <-]; now left).
  destruct (mapM parsearCompuesto (splitMas (trim p0))) as [rs|e0] eqn:R; simpl.
  - destruct (mapM parsearCompuesto (splitMas (trim p1))) as [ps|e1] eqn:P; simpl;
      [discriminate|].
    intros [= <-]. right. eapply mapM_parsearCompuesto_error; eauto.
  - intros [= <-]. right. eapply mapM_parsearCompuesto_error; eauto.
Qed.

(** C3, as amended.  [parsearEcuacion] throws its arrow error exactly
    when the text as written does not hold one single reaction arrow,
    the arrows being every U+2192, every [=] and every [->]; whether
    a side of the arrow is empty plays no part. *)
Theorem parsearEcuacion_flecha (ecuacion : cadena) :
  parsearEcuacion ecuacion = Lanza ErrorFlecha <-> contarSeparadores ecuacion <> 1%nat.
Proof.
  rewrite <- contarFlechas_normalizar.
  pose proof (splitFlecha_length (normalizar ecuacion)) as L.
  unfold parsearEcuacion.
  destruct (splitFlecha (normalizar ecuacion)) as [|p0 [|p1 [|p2 l]]]; simpl in L;
    try (split; [intros _; lia|reflexivity]).
  split; [|lia]. intros H. exfalso.
  destruct (mapM parsearCompuesto (splitMas (trim p0))) as [rs|e0] eqn:R; simpl in H.
  - destruct (mapM parsearCompuesto (splitMas (trim p1))) as [ps|e1] eqn:P; simpl in H;
      [discriminate|].
    injection H as ->. apply mapM_parsearCompuesto_error in P. discriminate.
  - injection H as ->. apply mapM_parsearCompuesto_error in R. discriminate.
Qed.

(** C3, counterexample.  The text [-> H2O] has an empty left side:
    the split yields an empty first part, and [parsearEcuacion]
    returns an equation instead of throwing. *)
Lemma parsearEcuacion_lado_vacio :
  splitFlecha (normalizar (js "-> H2O")) = [[]; js " H2O"] /\
  parsearEcuacion (js "-> H2O") =
  Ok {| reactivos := [{| coeficiente := 1; formula := []; elementos := [] |}];
        productos := [{| coeficiente := 1; formula := js "H2O";
                         elementos := [(js "H", 2%Z); (js "O", 1%Z)] |}] |}.
Proof. split; reflexivity. Qed.

(** ** Validation of an equation *)

Lemma validarCompuestos_valida (tabla : cadena -> option Elemento)
      (l : list Compuesto) (v : ValidacionEcuacion) :
  validarCompuestos tabla l = Ok v -> valida v = true ->
  forall c, In c l ->
            exists ve, validarElementos tabla (formula c) = Ok ve /\ ve_valida ve = true.
Proof.
  induction l as [|c0 l IH]; simpl; intros H Hv c Hc; [contradiction|].
  destruct (validarElementos tabla (formula c0)) as [ve|] eqn:E; simpl in H;
    [|discriminate].
  destruct (ve_valida ve) eqn:V.
  - destruct Hc as [<-|Hc]; [exists ve; now split|]. now apply IH.
  - injection H as <-. discriminate.
Qed.

(** C2, as amended.  When [validarEcuacion] answers [valida: true] the
    text parses, each side has at least one term, and the formula of
    every term parses to symbols that are all in the Element Table;
    nothing makes that formula non-empty. *)
Theorem validarEcuacion_valida (tabla : cadena -> option Elemento) (ecuacion : cadena) :
  valida (validarEcuacion tabla ecuacion) = true ->
  exists parseada,
    parsearEcuacion ecuacion = Ok parseada /\
    reactivos parseada <> [] /\
    productos parseada <> [] /\
    forall c, In c (reactivos parseada ++ productos parseada) ->
              exists ve, validarElementos tabla (formula c) = Ok ve /\
                         ve_valida ve = true.
Proof.
  unfold validarEcuacion.
  destruct (parsearEcuacion ecuacion) as [p|e] eqn:P; simpl; [|discriminate].
  intros H. exists p. split; [reflexivity|].
  remember (validarCompuestos tabla (reactivos p ++ productos p)) as vc eqn:V.
  destruct (reactivos p) as [|r rs]; [simpl in H; discriminate|].
  destruct (productos p) as [|q qs]; [simpl in H; discriminate|].
  simpl in H. destruct vc as [v|]; [|discriminate].
  repeat split; try discriminate.
  eapply validarCompuestos_valida; [symmetry; exact V|exact H].
Qed.

Lemma validarEcuacion_valida_testigo :
  valida (validarEcuacion tablaEjemplo (js "2H2 + O2 -> 2H2O")) = true /\
  exists parseada,
    parsearEcuacion (js "2H2 + O2 -> 2H2O") = Ok parseada /\
    reactivos parseada <> [] /\
    productos parseada <> [] /\
    forall c, In c (reactivos parseada ++ productos parseada) ->
              exists ve, validarElementos tablaEjemplo (formula c) = Ok ve /\
                         ve_valida ve = true.
Proof.
  split; [reflexivity|].
  apply (@validarEcuacion_valida tablaEjemplo (js "2H2 + O2 -> 2H2O")).
  reflexivity.
Defined.

(** C2, counterexample.  [H2 + -> H2O], with a [+] before the arrow,
    is answered [valida: true] although its second reactant term has
    the empty formula. *)
Lemma validarEcuacion_formula_vacia :
  valida (validarEcuacion tablaEjemplo (js "H2 + -> H2O")) = true /\
  exists parseada,
    parsearEcuacion (js "H2 + -> H2O") = Ok parseada /\
    exists c, In c (reactivos parseada) /\ formula c = [].
Proof.
  split; [reflexivity|]. eexists. split; [reflexivity|].
  eexists. split; [right; left; reflexivity|reflexivity].
Qed.

(** ** Counts are never negative *)




(** ** The balance of an equation *)

Lemma In_claves_acumular (k k' : cadena) (x : Z) (o : objeto Z) :
  In k' (claves (acumular k x o)) <-> In k' (claves o) \/ k' = k.
Proof.
  rewrite claves_acumular.
  destruct (existsb (Cadena.eqb k) (claves o)) eqn:E.
  - apply existsb_eqb_In in E. split; [tauto|]. intros [H| ->]; assumption.
  - rewrite in_app_iff. simpl. intuition congruence.
Qed.

Lemma cuenta_acumular (k k' : cadena) (x : Z) (o : objeto Z) :
  cuenta (acumular k x o) k' =
  (cuenta o k' + if Cadena.eqb k' k then x else 0)%Z.
Proof.
  unfold cuenta. rewrite leerProp_acumular.
  destruct (Cadena.eqb k' k) eqn:E.
  - apply eqb_eq in E. subst k'. destruct (leerProp k o); lia.
  - destruct (leerProp k' o); lia.
Qed.

(** Pouring the counts of [g], times [m], into [actual]. *)
Lemma cuenta_volcar (m : Z) (k' : cadena) (g : objeto Z) :
  NoDup (claves g) ->
  forall actual : objeto Z,
    cuenta (fold_left (fun a kv => acumular (fst kv) (snd kv * m)%Z a) g actual) k' =
    (cuenta actual k' + cuenta g k' * m)%Z.
Proof.
  induction g as [|[k v] g IH]; intros Hnd actual.
  - unfold cuenta. simpl. destruct (leerProp k' actual); lia.
  - inversion Hnd as [|? ? Hni Hnd']; subst.
    cbn [fold_left fst snd]. rewrite (IH Hnd'), cuenta_acumular.
    assert (cuenta ((k, v) :: g) k' =
            if Cadena.eqb k' k then v else cuenta g k') as ->.
    { unfold cuenta. simpl. destruct (Cadena.eqb k' k); reflexivity. }
    destruct (Cadena.eqb k' k) eqn:E; [|lia].
    apply eqb_eq in E. subst k'.
    apply leerProp_None in Hni. unfold cuenta. rewrite Hni. lia.
Qed.

Lemma In_claves_volcar (m : Z) (k' : cadena) (g : objeto Z) :
  forall actual : objeto Z,
    In k' (claves (fold_left (fun a kv => acumular (fst kv) (snd kv * m)%Z a) g actual))
    <-> In k' (claves actual) \/ In k' (claves g).
Proof.
  induction g as [|[k v] g IH]; simpl; intros actual.
  - tauto.
  - rewrite IH, In_claves_acumular. simpl. intuition congruence.
Qed.





Lemma In_conjunto_aux (k : cadena) (l : list cadena) :
  forall vistos : list cadena,
    In k (fold_left (fun vistos k => if existsb (Cadena.eqb k) vistos
                                     then vistos else vistos ++ [k]) l vistos)
    <-> In k vistos \/ In k l.
Proof.
  induction l as [|x l IH]; simpl; intros vistos; [tauto|].
  rewrite IH. destruct (existsb (Cadena.eqb x) vistos) eqn:E.
  - apply existsb_eqb_In in E. intuition congruence.
  - rewrite in_app_iff. simpl. intuition congruence.
Qed.

Lemma In_conjunto (k : cadena) (l : list cadena) :
  In k (conjunto l) <-> In k l.
Proof. unfold conjunto. rewrite In_conjunto_aux. simpl. tauto. Qed.

Lemma presente_app (k : cadena) (a b : list Compuesto) :
  presente k (a ++ b) <-> presente k a \/ presente k b.
Proof.
  unfold presente. split.
  - intros [c [H1 H2]]. apply in_app_or in H1. destruct H1; eauto.
  - intros [[c [H1 H2]]|[c [H1 H2]]]; exists c; split; auto using in_or_app.
Qed.


(** The loop of [verificarBalance]. *)
Lemma balanceada_fold (aR aP : objeto Z) (elems : list cadena) :
  forall acc : Balance,
    balanceada (fold_left (pasoBalance aR aP) elems acc) = true <->
    balanceada acc = true /\ forall k, In k elems -> cuenta aR k = cuenta aP k.
Proof.
  induction elems as [|x elems IH]; simpl; intros acc.
  - intuition.
  - rewrite IH. simpl. destruct (cuenta aR x =? cuenta aP x)%Z eqn:E.
    + apply Z.eqb_eq in E. intuition (subst; auto).
    + apply Z.eqb_neq in E. split.
      * intros [H _]. discriminate.
      * intros [_ H]. exfalso. apply E. apply H. now left.
Qed.

Lemma detalles_fold (aR aP : objeto Z) (k : cadena) (elems : list cadena) :
  forall acc : Balance,
    leerProp k (detalles (fold_left (pasoBalance aR aP) elems acc)) =
    if existsb (Cadena.eqb k) elems
    then Some {| de_reactivos := cuenta aR k;
                 de_productos := cuenta aP k;
                 de_balanceado := (cuenta aR k =? cuenta aP k)%Z |}
    else leerProp k (detalles acc).
Proof.
  induction elems as [|x elems IH]; simpl; intros acc; [reflexivity|].
  rewrite IH. simpl. destruct (existsb (Cadena.eqb k) elems); [destruct (Cadena.eqb k x); reflexivity|].
  destruct (Cadena.eqb k x) eqn:E; simpl.
  - apply eqb_eq in E. subst x. apply leerProp_ponerProp_mismo.
  - apply eqb_neq in E. now apply leerProp_ponerProp_otro.
Qed.

Lemma mapM_In {A B : Type} (f : A -> salida B) (l : list A) (bs : list B) :
  mapM f l = Ok bs -> forall b, In b bs -> exists a, In a l /\ f a = Ok b.
Proof.
  revert bs. induction l as [|a l IH]; simpl; intros bs H b Hb.
  - injection H as <-. contradiction.
  - destruct (f a) as [b0|] eqn:F; simpl in H; [|discriminate].
    destruct (mapM f l) as [bs0|]; simpl in H; [|discriminate].
    injection H as <-. destruct Hb as [<-|Hb].
    + exists a. split; [now left|exact F].
    + destruct (IH _ eq_refl _ Hb) as [a' [H1 H2]]. exists a'. split; [now right|exact H2].
Qed.





(** ** Groups in parentheses *)

Lemma bucle_combustible (n : nat) :
  forall (m : nat) (s : cadena) (st : estado),
    (List.length s <= n)%nat -> (List.length s <= m)%nat ->
    bucle n s st = bucle m s st.
Proof.
  induction n as [|n IH]; intros m s st Hn Hm.
  - destruct s; [destruct m; reflexivity|simpl in Hn; lia].
  - destruct s as [|c s1]; [destruct m; reflexivity|].
    destruct m as [|m]; [simpl in Hm; lia|]. simpl in Hn, Hm. simpl.
    destruct (c =? cAbre)%N; [apply IH; lia|].
    destruct (c =? cCierra)%N.
    { pose proof (leer_resto_length esDigito s1) as L.
      destruct (leer esDigito s1) as [ds s2]. simpl in L.
      destruct (cerrar (enteroO1 ds) st); simpl; [apply IH; lia|reflexivity]. }
    destruct (esMayuscula c); [|apply IH; lia].
    pose proof (leer_resto_length esMinuscula s1) as L1.
    destruct (leer esMinuscula s1) as [ms s2]. simpl in L1.
    pose proof (leer_resto_length esDigito s2) as L2.
    destruct (leer esDigito s2) as [ds s3]. simpl in L2.
    destruct (agregar (c :: ms) (enteroO1 ds) st); simpl; [apply IH; lia|reflexivity].
Qed.

Lemma cima_ponerCima (st : estado) (g g' : objeto Z) :
  cima st = Some g -> cima (ponerCima g' st) = Some g'.
Proof.
  unfold cima, ponerCima. destruct (pila st) as [|g0 r]; [|reflexivity].
  destruct (enPila st); [reflexivity|discriminate].
Qed.

Lemma ponerCima_ponerCima (st : estado) (g1 g2 : objeto Z) :
  ponerCima g2 (ponerCima g1 st) = ponerCima g2 st.
Proof.
  unfold ponerCima. destruct (pila st) as [|g0 r] eqn:E; simpl.
  - destruct (enPila st) eqn:B; simpl; [reflexivity|]. now rewrite E, B.
  - reflexivity.
Qed.

Lemma ponerCima_cima (st : estado) (g : objeto Z) :
  cima st = Some g -> ponerCima g st = st.
Proof.
  destruct st as [r b p]. unfold cima, ponerCima. simpl.
  destruct p as [|g0 p]; [destruct b|]; intros [= <-]; reflexivity.
Qed.

Lemma leer_frontera (p : unidad -> bool) (a resto : cadena) :
  frontera p resto ->
  leer p (a ++ resto) = (fst (leer p a), snd (leer p a) ++ resto).
Proof.
  intros Hf. induction a as [|c a IH]; simpl.
  - destruct resto as [|d resto]; [reflexivity|]. simpl in *. now rewrite Hf.
  - destruct (p c); [|reflexivity]. rewrite IH. destruct (leer p a). reflexivity.
Qed.

Lemma sinParentesis_leer (p : unidad -> bool) (f : cadena) :
  sinParentesis f -> sinParentesis (snd (leer p f)).
Proof.
  unfold sinParentesis. intros H. rewrite (leer_partes p f) in H.
  now apply Forall_app in H.
Qed.

(** A text without parentheses only changes the frame on top of the
    stack, and changes it the same way whatever lies below and
    whatever follows. *)
Lemma bucle_sinParentesis (n : nat) :
  forall (f resto : cadena) (st1 st2 : estado) (g : objeto Z),
    (List.length f <= n)%nat -> sinParentesis f ->
    frontera esMinuscula resto -> frontera esDigito resto ->
    cima st1 = Some g -> cima st2 = Some g ->
    exists g',
      bucle (List.length (f ++ resto)) (f ++ resto) st1 =
      bucle (List.length resto) resto (ponerCima g' st1) /\
      bucle (List.length f) f st2 = Ok (ponerCima g' st2).
Proof.
  induction n as [|n IH]; intros f resto st1 st2 g Hn Hf Hr1 Hr2 H1 H2.
  - destruct f; [|simpl in Hn; lia]. exists g. simpl.
    rewrite !ponerCima_cima by assumption. split; [reflexivity|].
    reflexivity.
  - destruct f as [|c f1].
    { exists g. simpl. rewrite !ponerCima_cima by assumption.
      split; reflexivity. }
    inversion Hf as [|? ? [Hc1 Hc2] Hf1]; subst. simpl in Hn.
    apply N.eqb_neq in Hc1, Hc2.
    cbn [app List.length bucle]. rewrite Hc1, Hc2.
    destruct (esMayuscula c).
    + rewrite (leer_frontera esMinuscula f1 resto Hr1).
      pose proof (leer_resto_length esMinuscula f1) as L1.
      pose proof (sinParentesis_leer esMinuscula Hf1) as S1.
      destruct (leer esMinuscula f1) as [ms s2]. cbn [fst snd] in *.
      rewrite (leer_frontera esDigito s2 resto Hr2).
      pose proof (leer_resto_length esDigito s2) as L2.
      pose proof (sinParentesis_leer esDigito S1) as S2.
      destruct (leer esDigito s2) as [ds s3]. cbn [fst snd] in *.
      unfold agregar. rewrite H1, H2. cbn [ligar].
      set (g1 := acumular (c :: ms) (enteroO1 ds) g).
      destruct (IH s3 resto (ponerCima g1 st1) (ponerCima g1 st2) g1) as [g' [E1 E2]];
        try assumption; try lia;
        try (eapply cima_ponerCima; eassumption).
      exists g'. rewrite !ponerCima_ponerCima in *. split.
      * rewrite <- E1. apply bucle_combustible; rewrite !length_app; lia.
      * rewrite <- E2. apply bucle_combustible; lia.
    + destruct (IH f1 resto st1 st2 g) as [g' [E1 E2]]; try assumption; try lia.
      exists g'. split; assumption.
Qed.

Lemma ponerProp_nuevo {V : Type} (k : cadena) (v : V) (o : objeto V) :
  ~ In k (claves o) -> ponerProp k v o = o ++ [(k, v)].
Proof.
  induction o as [|[k' v'] o IH]; simpl; intros H; [reflexivity|].
  destruct (Cadena.eqb k k') eqn:E.
  - apply eqb_eq in E. subst. exfalso. apply H. now left.
  - rewrite IH; [reflexivity|]. intros Hk. apply H. now right.
Qed.

Lemma acumular_nuevo (k : cadena) (x : Z) (o : objeto Z) :
  ~ In k (claves o) -> acumular k x o = o ++ [(k, x)].
Proof.
  intros H. unfold acumular. rewrite (proj2 (leerProp_None k o) H).
  now apply ponerProp_nuevo.
Qed.

(** Pouring a group into a frame that has none of its keys appends
    the group, each count times the multiplier. *)
Lemma volcar_nuevo (m : Z) (g : objeto Z) :
  forall actual : objeto Z,
    NoDup (claves actual ++ claves g) ->
    fold_left (fun a kv => acumular (fst kv) (snd kv * m)%Z a) g actual =
    actual ++ List.map (fun kv => (fst kv, (snd kv * m)%Z)) g.
Proof.
  induction g as [|[k v] g IH]; simpl; intros actual H.
  - now rewrite app_nil_r.
  - rewrite acumular_nuevo.
    + rewrite IH.
      * rewrite <- app_assoc. reflexivity.
      * unfold claves in *. rewrite map_app. simpl. rewrite <- app_assoc. exact H.
    + apply NoDup_remove_2 in H. intros Hk. apply H. apply in_or_app. now left.
Qed.

(** The text [pre(f)ds], [pre] and [f] without parentheses and [ds]
    digits: the object of [f], times the multiplier, is poured into
    the object of [pre]. *)
Lemma parsearFormula_grupo (pre f ds : cadena) :
  sinParentesis pre -> sinParentesis f -> Forall (fun c => esDigito c = true) ds ->
  exists o0 o1,
    parsearFormula pre = Ok o0 /\
    parsearFormula f = Ok o1 /\
    parsearFormula (pre ++ cAbre :: f ++ cCierra :: ds) =
    Ok (fold_left (fun a kv => acumular (fst kv) (snd kv * enteroO1 ds)%Z a) o1 o0).
Proof.
  intros Hpre Hf Hds.
  destruct (@bucle_sinParentesis (List.length pre) pre (cAbre :: f ++ cCierra :: ds)
              estadoInicial estadoInicial [] (le_n _) Hpre eq_refl eq_refl
              eq_refl eq_refl) as [o0 [E0 P0]].
  destruct (@bucle_sinParentesis (List.length f) f (cCierra :: ds)
              (apilar (ponerCima o0 estadoInicial)) estadoInicial []
              (le_n _) Hf eq_refl eq_refl eq_refl eq_refl) as [o1 [E1 P1]].
  exists o0, o1.
  split; [unfold parsearFormula; now rewrite P0|].
  split; [unfold parsearFormula; now rewrite P1|].
  unfold parsearFormula. rewrite E0.
  change (bucle (List.length (cAbre :: f ++ cCierra :: ds)) (cAbre :: f ++ cCierra :: ds)
                (ponerCima o0 estadoInicial))
    with (bucle (List.length (f ++ cCierra :: ds)) (f ++ cCierra :: ds)
                (apilar (ponerCima o0 estadoInicial))).
  rewrite E1. cbn [List.length bucle].
  change (cCierra =? cAbre)%N with false. change (cCierra =? cCierra)%N with true.
  cbv iota. rewrite (leer_todo _ Hds).
  unfold cerrar. cbn [sacar ponerCima apilar estadoInicial pila enPila resultado].
  destruct o1 as [|[k0 v0] o1]; cbn [ligar cima pila enPila resultado ponerCima];
    destruct (List.length ds); reflexivity.
Qed.




(** C8.  A group in parentheses is counted into the frame around it
    times its multiplier: in [pre(f)ds], with [pre] and [f] free of
    parentheses and [ds] digits, every element has its count in [pre]
    plus its count in [f] times the multiplier, 1 when [ds] is empty.
    A group around a whole formula, with no multiplier or with 1,
    changes nothing: [(H2O)1] is [H2O].  [Ca(OH)2] and [Al2(SO4)3]
    have the counts of their atoms. *)
Theorem parsearFormula_grupos :
  (forall pre f ds,
      sinParentesis pre -> sinParentesis f -> Forall (fun c => esDigito c = true) ds ->
      exists o0 o1 o,
        parsearFormula pre = Ok o0 /\
        parsearFormula f = Ok o1 /\
        parsearFormula (pre ++ cAbre :: f ++ cCierra :: ds) = Ok o /\
        forall elemento,
          cuenta o elemento =
          (cuenta o0 elemento + cuenta o1 elemento * enteroO1 ds)%Z) /\
  (forall f,
      sinParentesis f ->
      parsearFormula (cAbre :: f ++ [cCierra; 49%N]) = parsearFormula f /\
      parsearFormula (cAbre :: f ++ [cCierra]) = parsearFormula f) /\
  parsearFormula (js "(H2O)1") = parsearFormula (js "H2O") /\
  parsearFormula (js "H2O") = Ok [(js "H", 2%Z); (js "O", 1%Z)] /\
  parsearFormula (js "Ca(OH)2") = Ok [(js "Ca", 1%Z); (js "O", 2%Z); (js "H", 2%Z)] /\
  parsearFormula (js "Al2(SO4)3") = Ok [(js "Al", 2%Z); (js "S", 3%Z); (js "O", 12%Z)].
Proof.
  split; [|split; [|repeat split; reflexivity]].
  - intros pre f ds Hpre Hf Hds.
    destruct (parsearFormula_grupo Hpre Hf Hds) as [o0 [o1 [P0 [P1 P]]]].
    exists o0, o1. eexists. repeat split; try eassumption.
    intros elemento. apply cuenta_volcar.
    exact (proj1 (parsearFormula_marco _ P1)).
  - intros f Hf.
    assert (forall ds, Forall (fun c => esDigito c = true) ds -> enteroO1 ds = 1%Z ->
                       parsearFormula (cAbre :: f ++ cCierra :: ds) = parsearFormula f)
      as H.
    { intros ds Hds H1.
      destruct (@parsearFormula_grupo [] f ds (Forall_nil _) Hf Hds)
        as [o0 [o1 [P0 [P1 P]]]].
      injection P0 as <-. simpl in P. rewrite P, P1, H1. f_equal.
      rewrite volcar_nuevo by exact (proj1 (parsearFormula_marco _ P1)).
      simpl. rewrite <- (map_id o1) at 2. apply map_ext.
      intros [k v]. simpl. now rewrite Z.mul_1_r. }
    split; apply H; repeat constructor.
Qed.

Lemma parsearFormula_grupos_testigo :
  parsearFormula (js "(H2O)1") = Ok [(js "H", 2%Z); (js "O", 1%Z)].
Proof.
  destruct parsearFormula_grupos as [_ [H _]].
  destruct (H (js "H2O")) as [H1 _]; [|exact H1].
  repeat constructor; discriminate.
Defined.

(** ** Numbers *)

Lemma igual_refl (a : numero) : igual a a.
Proof. destruct a; simpl; auto. reflexivity. Qed.

Lemma igual_sym (a b : numero) : igual a b -> igual b a.
Proof. destruct a, b; simpl; auto. intros H. now symmetry. Qed.


Ltac comparar x y :=
  let H := fresh "H" in
  destruct (Qcompare_spec x y) as [H|H|H].

Lemma lt_irrefl (a : numero) : lt a a = false.
Proof.
  destruct a; simpl; auto. comparar q q; auto. exfalso. lra.
Qed.

Lemma lt_trans (a b c : numero) : lt a b = true -> lt b c = true -> lt a c = true.
Proof.
  destruct a as [x| | |], b as [y| | |], c as [z| | |]; simpl; auto; try discriminate.
  comparar x y; try discriminate. comparar y z; try discriminate.
  comparar x z; auto; exfalso; lra.
Qed.

Lemma lt_igual_izq (a b c : numero) : igual a b -> lt a c = lt b c.
Proof.
  destruct a as [x| | |], b as [y| | |], c as [z| | |]; simpl; auto; try contradiction.
  intros H. comparar x z; comparar y z; auto; exfalso; lra.
Qed.

Lemma lt_igual_der (a b c : numero) : igual a b -> lt c a = lt c b.
Proof.
  destruct a as [x| | |], b as [y| | |], c as [z| | |]; simpl; auto; try contradiction.
  intros H. comparar z x; comparar z y; auto; exfalso; lra.
Qed.

Lemma lt_bajo_infinito (a b : numero) : lt a b = true -> lt a PInf = true.
Proof. destruct a, b; simpl; auto. Qed.

Lemma lt_no_igual (a b : numero) : lt a b = true -> ~ igual b a.
Proof.
  intros H E. rewrite (lt_igual_der _ _ a E), lt_irrefl in H. discriminate.
Qed.




Lemma Qeq_bool_falso (x y : Q) : ~ x == y -> Qeq_bool x y = false.
Proof.
  intros H. destruct (Qeq_bool x y) eqn:E; [|reflexivity].
  apply Qeq_bool_iff in E. contradiction.
Qed.



Lemma mul_igual_izq (a b c : numero) : igual a b -> igual (mul a c) (mul b c).
Proof.
  destruct a as [x| | |], b as [y| | |], c as [z| | |]; simpl; auto; try contradiction;
    intros H; try apply igual_refl.
  - now rewrite H.
  - comparar x 0; comparar y 0; simpl; auto; exfalso; lra.
  - comparar 0 x; comparar 0 y; simpl; auto; exfalso; lra.
Qed.



(** ** The limiting reagent *)

Lemma proporcionDe_efectivo (parseada : Ecuacion) (d : DatoMoles) :
  proporcionDe (efectivo parseada d) = razon parseada d.
Proof. reflexivity. Qed.

Lemma lt_infinito_falso (a : numero) : lt a PInf = false -> forall b, lt a b = false.
Proof. destruct a; simpl; try discriminate; intros _ b; destruct b; reflexivity. Qed.

Lemma invLimitante_paso (parseada : Ecuacion) (vistos : list DatoMoles)
      (acc : option Efectivo * numero) (d : DatoMoles) :
  invLimitante parseada vistos acc ->
  invLimitante parseada (vistos ++ [d]) (pasoLimitante acc (efectivo parseada d)).
Proof.
  intros [Hmin Hlim]. unfold pasoLimitante. rewrite proporcionDe_efectivo.
  destruct (lt (razon parseada d) (snd acc)) eqn:L.
  - (* the reactant replaces the minimum *)
    split; simpl.
    + intros d' Hd'. apply in_app_or in Hd'. destruct Hd' as [Hd'|[<-|[]]].
      * destruct (lt (razon parseada d') (razon parseada d)) eqn:L'; [|reflexivity].
        rewrite <- (Hmin _ Hd'). symmetry. eapply lt_trans; eauto.
      * apply lt_irrefl.
    + exists (List.length vistos), d. repeat split.
      * rewrite nth_error_app2 by lia. now rewrite Nat.sub_diag.
      * eapply lt_bajo_infinito; eauto.
      * intros j d' Hj Hd' E. rewrite nth_error_app1 in Hd' by exact Hj.
        apply nth_error_In in Hd'. apply Hmin in Hd'.
        rewrite (lt_igual_izq _ _ _ E), L in Hd'. discriminate.
  - (* the minimum stays *)
    split.
    + intros d' Hd'. apply in_app_or in Hd'. destruct Hd' as [Hd'|[<-|[]]]; auto.
    + destruct (fst acc) as [ef|]; [|exact Hlim].
      destruct Hlim as [i [d0 [Hi [Hef [Hacc [Hinf Hprev]]]]]].
      exists i, d0. repeat split; auto.
      * rewrite nth_error_app1; [exact Hi|]. apply nth_error_Some. congruence.
      * intros j d' Hj Hd'. apply (Hprev j d' Hj).
        rewrite nth_error_app1 in Hd'; [exact Hd'|].
        assert (i < List.length vistos)%nat by (apply nth_error_Some; congruence). lia.
Qed.

Lemma invLimitante_fold (parseada : Ecuacion) (resto : list DatoMoles) :
  forall (vistos : list DatoMoles) (acc : option Efectivo * numero),
    invLimitante parseada vistos acc ->
    invLimitante parseada (vistos ++ resto)
                 (fold_left pasoLimitante (List.map (efectivo parseada) resto) acc).
Proof.
  induction resto as [|d resto IH]; simpl; intros vistos acc H.
  - now rewrite app_nil_r.
  - change (d :: resto) with ([d] ++ resto). rewrite app_assoc.
    apply IH. now apply invLimitante_paso.
Qed.

Lemma invLimitante_final (parseada : Ecuacion) (datos : list DatoMoles) :
  invLimitante parseada datos
               (fold_left pasoLimitante (List.map (efectivo parseada) datos) (None, PInf)).
Proof.
  apply (@invLimitante_fold parseada datos [] (None, PInf)).
  split; [intros d' []|reflexivity].
Qed.







(** ** Scaling the moles of every reactant *)






(** ** Molar mass and conversions *)

Lemma sumarMasas_conocidos (tabla : cadena -> option Elemento) (elems : objeto Z) :
  filter (desconocido tabla) (claves elems) = [] ->
  forall masaTotal, exists m, sumarMasas tabla elems masaTotal = Ok m.
Proof.
  induction elems as [|[k v] elems IH]; simpl; intros H masaTotal.
  - now exists masaTotal.
  - unfold desconocido in H at 1. destruct (tabla k) as [e|]; [|discriminate].
    apply IH. exact H.
Qed.

(** A formula that passes [validarElementos] has a molar mass. *)
Lemma calcularMasaMolar_valida (tabla : cadena -> option Elemento) (f : cadena)
      (v : ValidacionElementos) :
  validarElementos tabla f = Ok v -> ve_valida v = true ->
  exists m, calcularMasaMolar tabla f = Ok m.
Proof.
  unfold validarElementos, calcularMasaMolar.
  destruct (parsearFormula f) as [elems|]; simpl; [|discriminate].
  intros [= <-]. simpl.
  destruct (filter (desconocido tabla) (claves elems)) eqn:F; [|discriminate].
  intros _. now apply sumarMasas_conocidos.
Qed.

(** C7.  For a formula whose symbols are all in the Element Table and
    whose molar mass is not zero, converting a mass to moles and the
    moles back to a mass gives the mass again, in exact arithmetic. *)
Theorem masa_moles_masa (tabla : cadena -> option Elemento) (f : cadena)
        (v : ValidacionElementos) (a : Q) :
  validarElementos tabla f = Ok v -> ve_valida v = true ->
  (forall m, calcularMasaMolar tabla f = Ok m -> ~ m == 0) ->
  exists moles masa,
    masaAMoles tabla (Fin a) f = Ok moles /\
    molesAMasa tabla moles f = Ok masa /\
    igual masa (Fin a).
Proof.
  intros Hv Hval Hm.
  destruct (calcularMasaMolar_valida _ _ Hv Hval) as [m Em].
  specialize (Hm m Em).
  unfold masaAMoles, molesAMasa. rewrite Em. simpl.
  do 2 eexists. split; [reflexivity|]. split; [reflexivity|].
  rewrite (Qeq_bool_falso Hm). simpl. field. exact Hm.
Qed.

Lemma masa_moles_masa_testigo :
  exists moles masa,
    masaAMoles tablaEjemplo (Fin 10) (js "H2O") = Ok moles /\
    molesAMasa tablaEjemplo moles (js "H2O") = Ok masa /\
    igual masa (Fin 10).
Proof.
  apply (@masa_moles_masa tablaEjemplo (js "H2O")
           {| ve_valida := true; elementosInvalidos := [] |} 10).
  - reflexivity.
  - reflexivity.
  - intros m H. injection H as <-. vm_compute. discriminate.
Defined.

(** ** The stoichiometry engine *)

(** C10.  For an equation that passes [validarEcuacion] and
    [verificarBalance], [calcularEstequiometria] with no reactant
    data returns nothing: the loop of the limiting reagent leaves
    [limitante] null and reading its formula throws a [TypeError]. *)
Theorem calcularEstequiometria_sin_reactivos
        (tabla : cadena -> option Elemento) (ecuacion : cadena)
        (b : Balance) (datosProductoReal : option ProductoReal) :
  valida (validarEcuacion tabla ecuacion) = true ->
  verificarBalance ecuacion = Ok b ->
  balanceada b = true ->
  encontrarReactivoLimitante ecuacion [] = Lanza TypeError /\
  calcularEstequiometria tabla ecuacion [] datosProductoReal = Lanza TypeError.
Proof.
  intros Hv Hb Hbal.
  assert (encontrarReactivoLimitante ecuacion [] = Lanza TypeError) as E.
  { unfold encontrarReactivoLimitante. unfold verificarBalance in Hb.
    destruct (parsearEcuacion ecuacion); [reflexivity|discriminate]. }
  split; [exact E|].
  unfold calcularEstequiometria. rewrite Hv, Hb. simpl. rewrite Hbal. simpl.
  rewrite E. reflexivity.
Qed.

Lemma calcularEstequiometria_sin_reactivos_testigo :
  calcularEstequiometria tablaEjemplo (js "2H2 + O2 -> 2H2O") [] None = Lanza TypeError.
Proof.
  destruct (verificarBalance (js "2H2 + O2 -> 2H2O")) as [b|] eqn:B;
    [|vm_compute in B; discriminate].
  apply (@calcularEstequiometria_sin_reactivos
           tablaEjemplo (js "2H2 + O2 -> 2H2O") b None).
  - reflexivity.
  - exact B.
  - vm_compute in B. injection B as <-. reflexivity.
Defined.

Lemma find_resProducto (tabla : cadena -> option Elemento) (f : cadena)
      (pts : list ProductoTeorico) :
  forall (rps : list ResProducto) (rp : ResProducto),
    mapM (resProducto tabla) pts = Ok rps ->
    find (fun p => Cadena.eqb (rp_formula p) f) rps = Some rp ->
    exists pt,
      find (fun p => Cadena.eqb (pt_formula p) f) pts = Some pt /\
      rp_formula rp = f /\
      pt_masaTeorica pt = rp_masaTeorica rp /\
      calcularMasaMolar tabla f = Ok (rp_masaMolar rp).
Proof.
  induction pts as [|pt pts IH]; simpl; intros rps rp H F.
  - injection H as <-. discriminate.
  - unfold resProducto at 1 in H.
    destruct (calcularMasaMolar tabla (pt_formula pt)) as [m|] eqn:M; simpl in H;
      [|discriminate].
    destruct (mapM (resProducto tabla) pts) as [rps0|]; simpl in H; [|discriminate].
    injection H as <-. simpl in F.
    destruct (Cadena.eqb (pt_formula pt) f) eqn:E.
    + injection F as <-. apply eqb_eq in E. subst f. exists pt. simpl. auto.
    + now apply (IH rps0).
Qed.

Lemma find_resProducto_None (tabla : cadena -> option Elemento) (f : cadena)
      (pts : list ProductoTeorico) :
  forall rps : list ResProducto,
    mapM (resProducto tabla) pts = Ok rps ->
    find (fun p => Cadena.eqb (rp_formula p) f) rps = None ->
    find (fun p => Cadena.eqb (pt_formula p) f) pts = None.
Proof.
  induction pts as [|pt pts IH]; simpl; intros rps H F; [reflexivity|].
  unfold resProducto at 1 in H.
  destruct (calcularMasaMolar tabla (pt_formula pt)) as [m|]; simpl in H; [|discriminate].
  destruct (mapM (resProducto tabla) pts) as [rps0|]; simpl in H; [|discriminate].
  injection H as <-. simpl in F.
  destruct (Cadena.eqb (pt_formula pt) f); [discriminate|]. now apply (IH rps0).
Qed.

(** C1, as amended.  When [calcularEstequiometria] returns and the
    actual-product record names a product of the result, the percent
    yield is [(mass / theoretical mass) * 100], or 0 when the
    theoretical mass is exactly 0, where the mass is the actual moles
    times the molar mass of the product whenever the record gives
    moles, also when it gives a mass too, and the actual mass only
    when it gives no moles.  With no product of that formula the
    percent yield is null. *)
Theorem porcentaje_de_rendimiento
        (tabla : cadena -> option Elemento) (ecuacion : cadena)
        (datos : list DatoReactivo) (real : ProductoReal) (res : Estequiometria) :
  calcularEstequiometria tabla ecuacion datos (Some real) = Ok res ->
  match find (fun p => Cadena.eqb (rp_formula p) (pr_formula real)) (es_productos res) with
  | Some p =>
      let masa := match molesReales real with
                  | Some moles => mul moles (Fin (rp_masaMolar p))
                  | None => aNumero (masaReal real)
                  end in
      porcentajeRendimiento res =
      Some (if esCero (rp_masaTeorica p) then deZ 0
            else mul (div masa (rp_masaTeorica p)) (deZ 100))
  | None => porcentajeRendimiento res = None
  end.
Proof.
  unfold calcularEstequiometria.
  destruct (negb (valida (validarEcuacion tabla ecuacion))); [discriminate|].
  destruct (verificarBalance ecuacion) as [b|]; cbn [ligar]; [|discriminate].
  destruct (negb (balanceada b)); [discriminate|].
  destruct (mapM (conMoles tabla) datos) as [rcm|]; cbn [ligar]; [|discriminate].
  destruct (encontrarReactivoLimitante ecuacion rcm) as [lim|]; cbn [ligar];
    [|discriminate].
  destruct (calcularExceso tabla ecuacion rcm lim) as [exc|]; cbn [ligar];
    [|discriminate].
  destruct (calcularRendimientoTeorico tabla ecuacion lim) as [pts|]; cbn [ligar];
    [|discriminate].
  destruct (rendimientoDe tabla pts (Some real)) as [porc|] eqn:R; cbn [ligar];
    [|discriminate].
  destruct (calcularMasaMolar tabla (li_formula lim)) as [ml|]; cbn [ligar];
    [|discriminate].
  destruct (mapM (resExceso tabla) exc) as [enExceso|]; cbn [ligar]; [|discriminate].
  destruct (mapM (resProducto tabla) pts) as [prods|] eqn:M; cbn [ligar];
    [|discriminate].
  intros [= <-]. simpl. unfold rendimientoDe in R.
  destruct (find (fun p => Cadena.eqb (rp_formula p) (pr_formula real)) prods)
    as [rp|] eqn:F.
  - destruct (find_resProducto _ _ _ M F) as [pt [Fpt [_ [Ht Hm]]]].
    rewrite Fpt in R. unfold molesAMasa in R.
    destruct (molesReales real) as [moles|]; simpl in R.
    + rewrite Hm in R. simpl in R. injection R as <-.
      unfold calcularPorcentajeRendimiento. now rewrite Ht.
    + injection R as <-. unfold calcularPorcentajeRendimiento. now rewrite Ht.
  - rewrite (find_resProducto_None _ _ _ M F) in R. now injection R as <-.
Qed.

Lemma porcentaje_de_rendimiento_testigo :
  exists res,
    calcularEstequiometria
      tablaEjemplo (js "2H2 + O2 -> 2H2O") [enMoles "H2" 2; enMoles "O2" 2]
      (Some {| pr_formula := js "H2O"; masaReal := Some (deZ 18); molesReales := None |})
    = Ok res /\
    exists p, porcentajeRendimiento res = Some p /\ igual p (Fin (180000 # 3603)).
Proof.
  eexists. split; [reflexivity|].
  pose proof (@porcentaje_de_rendimiento
                tablaEjemplo (js "2H2 + O2 -> 2H2O") [enMoles "H2" 2; enMoles "O2" 2]
                {| pr_formula := js "H2O"; masaReal := Some (deZ 18);
                   molesReales := None |} _ eq_refl) as H.
  simpl in H. eexists. split; [exact H|]. vm_compute. reflexivity.
Defined.

(** C1, counterexample.  With 2 mol of H2 and 2 mol of O2 in
    [2H2 + O2 -> 2H2O] and an actual product H2O given both as 18 g
    and as 2 mol, the percent yield is 100, that of the 2 mol, and not
    the [(18 / theoretical mass) * 100] of the mass. *)
Lemma rendimiento_prefiere_moles :
  exists res p t,
    calcularEstequiometria
      tablaEjemplo (js "2H2 + O2 -> 2H2O") [enMoles "H2" 2; enMoles "O2" 2]
      (Some {| pr_formula := js "H2O"; masaReal := Some (deZ 18);
               molesReales := Some (deZ 2) |})
    = Ok res /\
    porcentajeRendimiento res = Some p /\
    List.map rp_masaTeorica (es_productos res) = [t] /\
    igual p (Fin 100) /\
    ~ igual p (mul (div (deZ 18) t) (deZ 100)).
Proof.
  do 3 eexists. split; [reflexivity|]. split; [reflexivity|]. split; [reflexivity|].
  split; vm_compute; [reflexivity|discriminate].
Qed.

(** * Further properties of the code *)

(** ** The keys of a parsed formula *)

Lemma Forall_claves_acumular (K : list N -> Prop) (k : cadena) (x : Z) (o : objeto Z) :
  K k -> Forall K (claves o) -> Forall K (claves (acumular k x o)).
Proof.
  intros Hk Ho. apply Forall_forall. intros k' Hk'.
  apply In_claves_acumular in Hk'. destruct Hk' as [H| ->]; [|exact Hk].
  rewrite Forall_forall in Ho. now apply Ho.
Qed.

Lemma Forall_claves_volcar (K : list N -> Prop) (m : Z) (g actual : objeto Z) :
  Forall K (claves g) -> Forall K (claves actual) ->
  Forall K (claves (fold_left (fun a kv => acumular (fst kv) (snd kv * m)%Z a) g actual)).
Proof.
  intros Hg Ha. apply Forall_forall. intros k' Hk'.
  apply In_claves_volcar in Hk'. rewrite Forall_forall in Hg, Ha.
  destruct Hk'; auto.
Qed.

Lemma cerrar_simbolos (m : Z) (st st1 : estado) :
  estadoSimbolos st -> cerrar m st = Ok st1 -> estadoSimbolos st1.
Proof.
  intros [Hr Hp] C. unfold cerrar, sacar in C. destruct st as [r b p]. simpl in *.
  destruct p as [|g p].
  - destruct b.
    + destruct r as [|[k0 v0] r]; simpl in C; [|discriminate].
      injection C as <-. split; simpl; auto.
    + injection C as <-. split; simpl; auto.
  - inversion Hp as [|? ? Hg Hp']; subst.
    destruct g as [|[k0 v0] g]; [injection C as <-; split; simpl; auto|].
    unfold cima, ponerCima in C. simpl in C. destruct p as [|g1 p].
    + destruct b; [|discriminate]. injection C as <-. split; simpl; [|constructor].
      apply (@Forall_claves_volcar esSimbolo m ((k0, v0) :: g) r); assumption.
    + injection C as <-. split; simpl; [exact Hr|].
      inversion Hp' as [|? ? Hg1 Hp'']; subst. constructor; [|exact Hp''].
      apply (@Forall_claves_volcar esSimbolo m ((k0, v0) :: g) g1); assumption.
Qed.

Lemma agregar_simbolos (k : cadena) (x : Z) (st st1 : estado) :
  esSimbolo k -> estadoSimbolos st -> agregar k x st = Ok st1 -> estadoSimbolos st1.
Proof.
  intros Hk [Hr Hp] C. unfold agregar, cima, ponerCima in C.
  destruct st as [r b p]. simpl in *. destruct p as [|g p].
  - destruct b; [|discriminate]. injection C as <-. split; simpl; [|constructor].
    now apply Forall_claves_acumular.
  - injection C as <-. split; simpl; [exact Hr|].
    inversion Hp as [|? ? Hg Hp']; subst. constructor; [|exact Hp'].
    now apply Forall_claves_acumular.
Qed.

Lemma bucle_simbolos (n : nat) :
  forall (s : cadena) (st st' : estado),
    estadoSimbolos st -> bucle n s st = Ok st' -> estadoSimbolos st'.
Proof.
  induction n as [|n IH]; intros s st st' Hst H.
  - destruct s; simpl in H; [|discriminate]. now injection H as <-.
  - destruct s as [|c s1]; simpl in H; [now injection H as <-|].
    destruct (c =? cAbre)%N.
    { eapply IH; [|exact H]. destruct Hst as [Hr Hp]. split; simpl; [exact Hr|].
      constructor; [constructor|exact Hp]. }
    destruct (c =? cCierra)%N.
    { destruct (leer esDigito s1) as [ds s2].
      destruct (cerrar (enteroO1 ds) st) as [st1|] eqn:C; simpl in H; [|discriminate].
      eapply IH; [|exact H]. eapply cerrar_simbolos; eauto. }
    destruct (esMayuscula c) eqn:Hc.
    { pose proof (leer_forall esMinuscula s1) as Hms.
      destruct (leer esMinuscula s1) as [ms s2]. simpl in Hms.
      destruct (leer esDigito s2) as [ds s3].
      destruct (agregar (c :: ms) (enteroO1 ds) st) as [st1|] eqn:C; simpl in H;
        [|discriminate].
      eapply IH; [|exact H]. eapply agregar_simbolos; [|exact Hst|exact C].
      split; assumption. }
    eapply IH; [exact Hst|exact H].
Qed.

(** X1.  Every key of the object [parsearFormula] returns is an
    uppercase letter followed by lowercase letters, and no key comes
    twice. *)
Theorem parsearFormula_claves (f : cadena) (o : objeto Z) :
  parsearFormula f = Ok o ->
  NoDup (claves o) /\ Forall esSimbolo (claves o).
Proof.
  intros H. split; [exact (proj1 (parsearFormula_marco _ H))|].
  unfold parsearFormula in H.
  destruct (bucle (List.length f) f estadoInicial) as [st|] eqn:B; simpl in H;
    [|discriminate].
  injection H as <-. eapply bucle_simbolos in B; [exact (proj1 B)|].
  split; constructor.
Qed.

Lemma parsearFormula_claves_testigo :
  NoDup (claves [(js "Ca", 1%Z); (js "O", 2%Z); (js "H", 2%Z)]) /\
  Forall esSimbolo (claves [(js "Ca", 1%Z); (js "O", 2%Z); (js "H", 2%Z)]).
Proof.
  apply (@parsearFormula_claves (js "Ca(OH)2")). reflexivity.
Defined.

(** ** Formulas without a closing parenthesis *)

Lemma cima_apilar (st : estado) : cima (apilar st) = Some [].
Proof. reflexivity. Qed.

Lemma bucle_sinCierre (n : nat) :
  forall (s : cadena) (st : estado) (g : objeto Z),
    (List.length s <= n)%nat -> sinCierre s -> cima st = Some g ->
    exists st', bucle n s st = Ok st' /\
                (pila st <> [] -> resultado st' = resultado st).
Proof.
  induction n as [|n IH]; intros s st g Hn Hs Hc.
  - destruct s; [|simpl in Hn; lia]. exists st. now split.
  - destruct s as [|c s1]; [exists st; now split|].
    inversion Hs as [|? ? Hc1 Hs1]; subst. simpl in Hn. simpl.
    apply N.eqb_neq in Hc1. rewrite Hc1.
    destruct (c =? cAbre)%N.
    { destruct (IH s1 (apilar st) [] ltac:(lia) Hs1 (cima_apilar st)) as [st' [E R]].
      exists st'. split; [exact E|]. intros _. rewrite R; [reflexivity|].
      simpl. discriminate. }
    destruct (esMayuscula c).
    { pose proof (leer_resto_length esMinuscula s1) as L1.
      pose proof (@leer_D (fun c => c <> cCierra) esMinuscula s1 Hs1) as [_ D1].
      destruct (leer esMinuscula s1) as [ms s2]. simpl in L1, D1.
      pose proof (leer_resto_length esDigito s2) as L2.
      pose proof (@leer_D (fun c => c <> cCierra) esDigito s2 D1) as [_ D2].
      destruct (leer esDigito s2) as [ds s3]. simpl in L2, D2.
      unfold agregar. rewrite Hc. simpl.
      set (g1 := acumular (c :: ms) (enteroO1 ds) g).
      destruct (IH s3 (ponerCima g1 st) g1 ltac:(lia) D2 (cima_ponerCima st g1 Hc))
        as [st' [E R]].
      exists st'. split; [exact E|]. intros Hp.
      assert (pila (ponerCima g1 st) <> [] /\
              resultado (ponerCima g1 st) = resultado st) as [Hp1 Hr1].
      { unfold ponerCima. destruct (pila st); [contradiction|]. simpl.
        split; [discriminate|reflexivity]. }
      now rewrite (R Hp1). }
    destruct (IH s1 st g ltac:(lia) Hs1 Hc) as [st' [E R]].
    exists st'. split; assumption.
Qed.

(** X2.  [parsearFormula] returns for every text without a closing
    parenthesis: the [TypeError] needs an unmatched [')']. *)
Theorem parsearFormula_sin_cierre (f : cadena) :
  sinCierre f -> exists o, parsearFormula f = Ok o.
Proof.
  intros Hf.
  destruct (@bucle_sinCierre (List.length f) f estadoInicial [] (le_n _) Hf eq_refl)
    as [st [E _]].
  exists (resultado st). unfold parsearFormula. now rewrite E.
Qed.

Lemma parsearFormula_sin_cierre_testigo :
  exists o, parsearFormula (js "Ca(OH") = Ok o.
Proof.
  apply parsearFormula_sin_cierre. repeat constructor; discriminate.
Defined.

(** X3.  A group that is opened and never closed is dropped with all
    that follows it: [pre(f], with [pre] free of parentheses and no
    [')'] in [f], parses as [pre]. *)
Theorem parsearFormula_grupo_abierto (pre f : cadena) :
  sinParentesis pre -> sinCierre f ->
  parsearFormula (pre ++ cAbre :: f) = parsearFormula pre.
Proof.
  intros Hpre Hf.
  destruct (@bucle_sinParentesis (List.length pre) pre (cAbre :: f)
              estadoInicial estadoInicial [] (le_n _) Hpre eq_refl eq_refl
              eq_refl eq_refl) as [o0 [E0 P0]].
  unfold parsearFormula. rewrite E0, P0.
  change (bucle (List.length (cAbre :: f)) (cAbre :: f) (ponerCima o0 estadoInicial))
    with (bucle (List.length f) f (apilar (ponerCima o0 estadoInicial))).
  destruct (@bucle_sinCierre (List.length f) f (apilar (ponerCima o0 estadoInicial)) []
              (le_n _) Hf eq_refl) as [st [E R]].
  rewrite E. simpl. f_equal. apply R. simpl. discriminate.
Qed.

Lemma parsearFormula_grupo_abierto_testigo :
  parsearFormula (js "Ca(OH") = parsearFormula (js "Ca").
Proof.
  apply (@parsearFormula_grupo_abierto (js "Ca") (js "OH"));
    repeat constructor; discriminate.
Defined.

(** ** Texts the parser finds nothing in *)

Lemma bucle_sinFichas (n : nat) :
  forall (s : cadena) (st : estado),
    (List.length s <= n)%nat -> sinFichas s -> bucle n s st = Ok st.
Proof.
  induction n as [|n IH]; intros s st Hn Hs.
  - destruct s; [reflexivity|simpl in Hn; lia].
  - destruct s as [|c s1]; [reflexivity|].
    inversion Hs as [|? ? [Hm [Ha Hc]] Hs1]; subst. simpl in Hn. simpl.
    apply N.eqb_neq in Ha, Hc. rewrite Ha, Hc, Hm. apply IH; [lia|exact Hs1].
Qed.

(** X4.  A text with no uppercase letter and no parenthesis, such as
    a formula typed in lowercase, has no element for the parser: the
    object is empty, [validarElementos] finds nothing invalid, the
    molar mass is 0, and [masaAMoles] divides by that zero. *)
Theorem formula_sin_fichas (tabla : cadena -> option Elemento) (f : cadena) (a : Q) :
  sinFichas f ->
  parsearFormula f = Ok [] /\
  validarElementos tabla f = Ok {| ve_valida := true; elementosInvalidos := [] |} /\
  calcularMasaMolar tabla f = Ok 0 /\
  masaAMoles tabla (Fin a) f = Ok (infinito (a ?= 0)).
Proof.
  intros Hf.
  assert (parsearFormula f = Ok []) as P.
  { unfold parsearFormula. rewrite bucle_sinFichas; [reflexivity|lia|exact Hf]. }
  split; [exact P|]. unfold validarElementos, masaAMoles, calcularMasaMolar.
  rewrite P. repeat split.
Qed.

Lemma formula_sin_fichas_testigo :
  validarElementos tablaEjemplo (js "h2o") =
    Ok {| ve_valida := true; elementosInvalidos := [] |} /\
  masaAMoles tablaEjemplo (Fin 18) (js "h2o") = Ok PInf.
Proof.
  destruct (@formula_sin_fichas tablaEjemplo (js "h2o") 18) as [_ [H1 [_ H2]]].
  - repeat constructor; discriminate.
  - split; [exact H1|exact H2].
Defined.

(** ** Formulas written one after the other *)




(** ** The parts of a compound *)



(** ** Splitting and joining *)

Lemma splitMas_cons (c : unidad) (t : cadena) :
  splitMas (c :: t) =
  if (c =? cMas)%N then [] :: splitMas t
  else match splitMas t with
       | p :: ps => (c :: p) :: ps
       | [] => [[c]]
       end.
Proof. reflexivity. Qed.

Lemma splitMas_no_vacio (s : cadena) : splitMas s <> [].
Proof.
  destruct s as [|c t]; [discriminate|]. rewrite splitMas_cons.
  destruct (c =? cMas)%N; [discriminate|]. destruct (splitMas t); discriminate.
Qed.

Lemma unir_cons (sep p : cadena) (ps : list cadena) :
  ps <> [] -> unir sep (p :: ps) = p ++ sep ++ unir sep ps.
Proof. destruct ps; [congruence|reflexivity]. Qed.

Lemma unir_cabeza (sep : cadena) (c : unidad) (p : cadena) (ps : list cadena) :
  unir sep ((c :: p) :: ps) = c :: unir sep (p :: ps).
Proof. destruct ps; reflexivity. Qed.

Lemma splitMas_unir (s : cadena) : unir [cMas] (splitMas s) = s.
Proof.
  induction s as [|c t IH]; [reflexivity|]. rewrite splitMas_cons.
  destruct (c =? cMas)%N eqn:E.
  - apply N.eqb_eq in E. subst c.
    rewrite unir_cons by apply splitMas_no_vacio. simpl. now rewrite IH.
  - pose proof (splitMas_no_vacio t) as Hne.
    destruct (splitMas t) as [|p ps]; [congruence|].
    rewrite unir_cabeza, IH. reflexivity.
Qed.

Lemma splitMas_sin_mas (s : cadena) :
  Forall (fun p => ~ In cMas p) (splitMas s).
Proof.
  induction s as [|c t IH]; [repeat constructor; auto|]. rewrite splitMas_cons.
  destruct (c =? cMas)%N eqn:E.
  - constructor; [auto|exact IH].
  - apply N.eqb_neq in E. destruct (splitMas t) as [|p ps].
    + repeat constructor. intros [H|[]]. congruence.
    + inversion IH as [|? ? Hp Hps]; subst. constructor; [|exact Hps].
      intros [H|H]; [congruence|contradiction].
Qed.

Lemma splitFlecha_no_vacio (s : cadena) : splitFlecha s <> [].
Proof.
  pose proof (splitFlecha_length s) as L. destruct (splitFlecha s); [discriminate|].
  discriminate.
Qed.

Lemma splitFlecha_unir_aux (n : nat) :
  forall s : cadena,
    (List.length s <= n)%nat ->
    unir [cGuion; cMayor] (splitFlecha s) = s /\
    Forall (fun p => contarFlechas p = O) (splitFlecha s).
Proof.
  induction n as [|n IH]; intros s Hn.
  - destruct s; [|simpl in Hn; lia]. split; [reflexivity|repeat constructor].
  - destruct s as [|c t]; [split; [reflexivity|repeat constructor]|].
    simpl in Hn. rewrite splitFlecha_cons. destruct t as [|d t'].
    { split; [reflexivity|repeat constructor]. }
    simpl in Hn. destruct ((c =? cGuion) && (d =? cMayor))%N eqn:E.
    + apply andb_true_iff in E. destruct E as [E1 E2].
      apply N.eqb_eq in E1, E2. subst c d.
      destruct (IH t' ltac:(lia)) as [U F]. split.
      * rewrite unir_cons by apply splitFlecha_no_vacio. simpl. now rewrite U.
      * constructor; [reflexivity|exact F].
    + destruct (IH (d :: t') ltac:(simpl; lia)) as [U F].
      pose proof (splitFlecha_no_vacio (d :: t')) as Hne.
      destruct (splitFlecha (d :: t')) as [|p ps]; [congruence|]. split.
      * rewrite unir_cabeza, U. reflexivity.
      * inversion F as [|? ? Hp Hps]; subst. constructor; [|exact Hps].
        rewrite contarFlechas_cons. destruct p as [|e p']; [reflexivity|].
        assert (e = d) as ->.
        { destruct ps; simpl in U; injection U as -> _; reflexivity. }
        rewrite E. exact Hp.
Qed.

(** X7.  Joining the parts [split] cuts gives the text back, for the
    arrow as for the plus sign, and no part holds the separator it was
    cut at. *)
Theorem split_unir (s : cadena) :
  unir [cGuion; cMayor] (splitFlecha s) = s /\
  Forall (fun p => contarFlechas p = O) (splitFlecha s) /\
  unir [cMas] (splitMas s) = s /\
  Forall (fun p => ~ In cMas p) (splitMas s).
Proof.
  destruct (@splitFlecha_unir_aux (List.length s) s (le_n _)) as [U F].
  repeat split; [exact U|exact F|apply splitMas_unir|apply splitMas_sin_mas].
Qed.

(** ** The terms of an equation *)

Lemma splitMas_length (s : cadena) :
  List.length (splitMas s) = S (count_occ N.eq_dec s cMas).
Proof.
  induction s as [|c t IH]; [reflexivity|]. rewrite splitMas_cons.
  destruct (c =? cMas)%N eqn:E.
  - apply N.eqb_eq in E. subst c. rewrite count_occ_cons_eq by reflexivity.
    simpl. now rewrite IH.
  - apply N.eqb_neq in E. rewrite count_occ_cons_neq by exact E.
    destruct (splitMas t); simpl in *; [discriminate|exact IH].
Qed.

Lemma count_occ_quitarIzq (c : unidad) (s : cadena) :
  esBlanco c = false ->
  count_occ N.eq_dec (quitarIzq s) c = count_occ N.eq_dec s c.
Proof.
  intros Hc. induction s as [|d t IH]; [reflexivity|]. simpl quitarIzq.
  destruct (esBlanco d) eqn:E; [|reflexivity].
  rewrite IH. rewrite count_occ_cons_neq; [reflexivity|]. intros ->. congruence.
Qed.

Lemma count_occ_trim (c : unidad) (s : cadena) :
  esBlanco c = false ->
  count_occ N.eq_dec (trim s) c = count_occ N.eq_dec s c.
Proof.
  intros Hc. unfold trim.
  now rewrite count_occ_rev, count_occ_quitarIzq, count_occ_rev, count_occ_quitarIzq.
Qed.

Lemma parsearEcuacion_lados (ecuacion : cadena) (parseada : Ecuacion) :
  parsearEcuacion ecuacion = Ok parseada ->
  reactivos parseada <> [] /\ productos parseada <> [].
Proof.
  unfold parsearEcuacion.
  destruct (splitFlecha (normalizar ecuacion)) as [|p0 [|p1 [|p2 l]]]; try discriminate.
  destruct (mapM parsearCompuesto (splitMas (trim p0))) as [rs|] eqn:R; simpl;
    [|discriminate].
  destruct (mapM parsearCompuesto (splitMas (trim p1))) as [ps|] eqn:P; simpl;
    [|discriminate].
  intros [= <-]. simpl. apply mapM_length in R, P. rewrite splitMas_length in R, P.
  split; [destruct rs|destruct ps]; discriminate.
Qed.

(** X8.  An equation that parses has at least one term on each side,
    and as many terms in all as the text has plus signs, and two. *)
Theorem parsearEcuacion_terminos (ecuacion : cadena) (parseada : Ecuacion) :
  parsearEcuacion ecuacion = Ok parseada ->
  reactivos parseada <> [] /\
  productos parseada <> [] /\
  (List.length (reactivos parseada) + List.length (productos parseada) =
   count_occ N.eq_dec ecuacion cMas + 2)%nat.
Proof.
  unfold parsearEcuacion.
  pose proof (@splitFlecha_unir_aux _ (normalizar ecuacion) (le_n _)) as [U _].
  destruct (splitFlecha (normalizar ecuacion)) as [|p0 [|p1 [|p2 l]]]; try discriminate.
  destruct (mapM parsearCompuesto (splitMas (trim p0))) as [rs|] eqn:R; simpl;
    [|discriminate].
  destruct (mapM parsearCompuesto (splitMas (trim p1))) as [ps|] eqn:P; simpl;
    [|discriminate].
  intros [= <-]. simpl.
  apply mapM_length in R, P. rewrite splitMas_length in R, P.
  repeat split.
  - destruct rs; [discriminate|discriminate].
  - destruct ps; [discriminate|discriminate].
  - rewrite R, P, !count_occ_trim by reflexivity.
    assert (count_occ N.eq_dec ecuacion cMas =
            count_occ N.eq_dec (normalizar ecuacion) cMas) as ->.
    { unfold normalizar. now rewrite !count_occ_reemplazar by discriminate. }
    rewrite <- U. simpl. rewrite count_occ_app.
    rewrite (@count_occ_cons_neq _ N.eq_dec _ cGuion cMas) by discriminate.
    rewrite (@count_occ_cons_neq _ N.eq_dec _ cMayor cMas) by discriminate.
    lia.
Qed.

Lemma parsearEcuacion_terminos_testigo :
  exists parseada,
    parsearEcuacion (js "2H2 + O2 -> 2H2O") = Ok parseada /\
    (List.length (reactivos parseada) + List.length (productos parseada) = 3)%nat.
Proof.
  eexists. split; [reflexivity|].
  exact (proj2 (proj2 (@parsearEcuacion_terminos (js "2H2 + O2 -> 2H2O") _ eq_refl))).
Defined.

(** ** What validation answers *)

Lemma validarElementos_error (tabla : cadena -> option Elemento) (f : cadena) (e : error) :
  validarElementos tabla f = Lanza e -> e = TypeError.
Proof.
  unfold validarElementos. destruct (parsearFormula f) eqn:P; simpl; [discriminate|].
  intros [= <-]. eapply parsearFormula_error; eauto.
Qed.

Lemma validarCompuestos_mensaje (tabla : cadena -> option Elemento)
      (l : list Compuesto) :
  match validarCompuestos tabla l with
  | Ok v =>
      (valida v = true /\ mensaje v = None) \/
      (valida v = false /\
       exists invalidos, invalidos <> [] /\ mensaje v = Some (ErrorElementos invalidos))
  | Lanza e => e = TypeError
  end.
Proof.
  induction l as [|c l IH]; simpl; [now left|].
  destruct (validarElementos tabla (formula c)) as [ve|e] eqn:V; simpl.
  - destruct (ve_valida ve) eqn:B; [exact IH|]. right. split; [reflexivity|].
    exists (elementosInvalidos ve). split; [|reflexivity].
    unfold validarElementos in V. destruct (parsearFormula (formula c)); simpl in V;
      [|discriminate].
    injection V as <-. simpl in *.
    destruct (filter (desconocido tabla) (claves a)); [discriminate|discriminate].
  - eapply validarElementos_error; eauto.
Qed.

(** X9.  [validarEcuacion] answers [valida: true] with a null error
    or [valida: false] with a message, and the message is that of the
    arrow, that of the [TypeError] of an unmatched [')'], or a list of
    unrecognized symbols that is not empty; the two messages on a
    missing reactant or product are never given. *)
Theorem validarEcuacion_mensaje (tabla : cadena -> option Elemento) (ecuacion : cadena) :
  let v := validarEcuacion tabla ecuacion in
  (valida v = true /\ mensaje v = None) \/
  (valida v = false /\
   (mensaje v = Some ErrorFlecha \/
    mensaje v = Some TypeError \/
    exists invalidos, invalidos <> [] /\ mensaje v = Some (ErrorElementos invalidos))).
Proof.
  unfold validarEcuacion.
  destruct (parsearEcuacion ecuacion) as [p|e] eqn:P; simpl.
  - destruct (parsearEcuacion_lados _ P) as [Hr Hp].
    pose proof (validarCompuestos_mensaje tabla (reactivos p ++ productos p)) as H.
    destruct (reactivos p) as [|r rs]; [congruence|].
    destruct (productos p) as [|q qs]; [congruence|].
    cbn [List.length Nat.eqb].
    destruct (validarCompuestos tabla ((r :: rs) ++ q :: qs)) as [v|e]; simpl.
    + destruct H as [H|[H1 H2]]; [now left|]. right. split; [exact H1|].
      right. right. exact H2.
    + subst e. right. split; [reflexivity|]. right. now left.
  - right. split; [reflexivity|].
    destruct (parsearEcuacion_error _ P) as [-> | ->]; auto.
Qed.

(** ** Validation and molar mass *)

Lemma sumarMasas_desconocido (tabla : cadena -> option Elemento) (elems : objeto Z) :
  forall (s : cadena) (resto : list cadena) (masaTotal : Q),
    filter (desconocido tabla) (claves elems) = s :: resto ->
    sumarMasas tabla elems masaTotal = Lanza (ErrorElemento s).
Proof.
  induction elems as [|[k v] elems IH]; simpl; intros s resto masaTotal H;
    [discriminate|].
  unfold desconocido in H at 1. destruct (tabla k) as [e|].
  - eapply IH; eauto.
  - now injection H as <- _.
Qed.

(** X10.  [validarElementos] and [calcularMasaMolar] agree on every
    formula: the molar mass is returned exactly when no symbol is
    reported, and otherwise the error thrown names the first symbol
    of [elementosInvalidos]; the symbols reported are the keys of the
    parsed formula that the table lacks, each once; and both throw
    the same [TypeError] on an unmatched [')']. *)
Theorem validarElementos_masaMolar (tabla : cadena -> option Elemento) (f : cadena) :
  match validarElementos tabla f with
  | Ok v =>
      NoDup (elementosInvalidos v) /\
      (forall s, In s (elementosInvalidos v) -> tabla s = None) /\
      match elementosInvalidos v with
      | [] => ve_valida v = true /\ exists m, calcularMasaMolar tabla f = Ok m
      | s :: _ => ve_valida v = false /\
                  calcularMasaMolar tabla f = Lanza (ErrorElemento s)
      end
  | Lanza e => e = TypeError /\ calcularMasaMolar tabla f = Lanza TypeError
  end.
Proof.
  unfold validarElementos, calcularMasaMolar.
  destruct (parsearFormula f) as [elems|e] eqn:P; simpl.
  - split; [|split].
    + apply NoDup_filter. exact (proj1 (parsearFormula_marco _ P)).
    + intros s Hs. apply filter_In in Hs. destruct Hs as [_ Hs].
      unfold desconocido in Hs. destruct (tabla s); [discriminate|reflexivity].
    + destruct (filter (desconocido tabla) (claves elems)) as [|s resto] eqn:F.
      * split; [reflexivity|]. now apply sumarMasas_conocidos.
      * split; [reflexivity|]. eapply sumarMasas_desconocido; eauto.
  - apply parsearFormula_error in P. subst e. now split.
Qed.

Lemma masas_de_valida (tabla : cadena -> option Elemento) (ecuacion : cadena)
      (parseada : Ecuacion) :
  valida (validarEcuacion tabla ecuacion) = true ->
  parsearEcuacion ecuacion = Ok parseada ->
  forall c, In c (reactivos parseada ++ productos parseada) ->
            exists m, calcularMasaMolar tabla (formula c) = Ok m.
Proof.
  unfold validarEcuacion. intros H P. rewrite P in H. cbn [ligar] in H.
  remember (validarCompuestos tabla (reactivos parseada ++ productos parseada))
    as vc eqn:V.
  destruct (reactivos parseada) as [|r rs]; [simpl in H; discriminate|].
  destruct (productos parseada) as [|q qs]; [simpl in H; discriminate|].
  simpl in H. destruct vc as [v|]; [|discriminate].
  intros c Hc.
  destruct (validarCompuestos_valida _ _ (eq_sym V) H c Hc) as [ve [E1 E2]].
  eapply calcularMasaMolar_valida; eauto.
Qed.

(** X11.  Every compound of an equation that [validarEcuacion]
    accepts has a molar mass: [calcularMasaMolar] returns for the
    formula of each term, as the form of the reactants takes for
    granted. *)
Theorem validarEcuacion_masas (tabla : cadena -> option Elemento) (ecuacion : cadena)
        (parseada : Ecuacion) :
  valida (validarEcuacion tabla ecuacion) = true ->
  parsearEcuacion ecuacion = Ok parseada ->
  forall c, In c (reactivos parseada ++ productos parseada) ->
            exists m, calcularMasaMolar tabla (formula c) = Ok m.
Proof. exact (@masas_de_valida tabla ecuacion parseada). Qed.

Lemma validarEcuacion_masas_testigo :
  exists m, calcularMasaMolar tablaEjemplo (js "H2O") = Ok m.
Proof.
  apply (@validarEcuacion_masas tablaEjemplo (js "2H2 + O2 -> 2H2O") _ eq_refl eq_refl
           {| coeficiente := 2; formula := js "H2O";
              elementos := [(js "H", 2%Z); (js "O", 1%Z)] |}).
  right. right. left. reflexivity.
Defined.

(** ** The details of a balance *)

(** X12.  In the answer of [verificarBalance] the flag of each element
    says whether its two counts are equal, and the equation is
    balanced exactly when every element of [detalles] is flagged
    balanced. *)
Theorem detalles_coherentes (ecuacion : cadena) (b : Balance) :
  verificarBalance ecuacion = Ok b ->
  (forall elemento d,
      leerProp elemento (detalles b) = Some d ->
      de_balanceado d = (de_reactivos d =? de_productos d)%Z) /\
  (balanceada b = true <->
   forall elemento d,
     leerProp elemento (detalles b) = Some d -> de_balanceado d = true).
Proof.
  unfold verificarBalance. destruct (parsearEcuacion ecuacion) as [p|]; simpl;
    [|discriminate].
  set (aR := contarAtomos (reactivos p)). set (aP := contarAtomos (productos p)).
  set (elems := conjunto (claves aR ++ claves aP)).
  intros [= <-]. split.
  - intros k d. rewrite detalles_fold. simpl.
    destruct (existsb (Cadena.eqb k) elems); [|discriminate].
    now intros [= <-].
  - rewrite balanceada_fold. simpl. split.
    + intros [_ H] k d. rewrite detalles_fold. simpl.
      destruct (existsb (Cadena.eqb k) elems) eqn:E; [|discriminate].
      intros [= <-]. simpl. apply Z.eqb_eq. apply H. now apply existsb_eqb_In.
    + intros H. split; [reflexivity|]. intros k Hk.
      apply existsb_eqb_In in Hk.
      specialize (H k {| de_reactivos := cuenta aR k; de_productos := cuenta aP k;
                         de_balanceado := (cuenta aR k =? cuenta aP k)%Z |}).
      rewrite detalles_fold in H. simpl in H. fold elems in H. rewrite Hk in H.
      apply Z.eqb_eq. now apply H.
Qed.

Lemma detalles_coherentes_testigo :
  exists b,
    verificarBalance (js "H2 + O2 -> H2O") = Ok b /\
    (balanceada b = true <->
     forall elemento d,
       leerProp elemento (detalles b) = Some d -> de_balanceado d = true).
Proof.
  eexists. split; [reflexivity|].
  exact (proj2 (@detalles_coherentes (js "H2 + O2 -> H2O") _ eq_refl)).
Defined.

(** ** Conservation of mass *)

Lemma sumarMasas_masaDe (tabla : cadena -> option Elemento) (o : objeto Z) :
  forall acc m : Q, sumarMasas tabla o acc = Ok m -> m == acc + masaDe tabla o.
Proof.
  induction o as [|[k v] o IH]; simpl; intros acc m H.
  - injection H as <-. ring.
  - unfold masaAtomicaDe. destruct (tabla k) as [e|]; [|discriminate].
    rewrite (IH _ _ H). ring.
Qed.

Lemma masaDe_ponerProp (tabla : cadena -> option Elemento) (k : cadena) (v : Z)
      (o : objeto Z) :
  masaDe tabla (ponerProp k v o) ==
  masaDe tabla o + masaAtomicaDe tabla k * (inject_Z v - inject_Z (cuenta o k)).
Proof.
  induction o as [|[k' v'] o IH]; simpl.
  - unfold cuenta. simpl. ring.
  - unfold cuenta in *. simpl. destruct (Cadena.eqb k k') eqn:E; simpl.
    + apply eqb_eq in E. subst k'. ring.
    + rewrite IH. ring.
Qed.

Lemma masaDe_acumular (tabla : cadena -> option Elemento) (k : cadena) (x : Z)
      (o : objeto Z) :
  masaDe tabla (acumular k x o) == masaDe tabla o + masaAtomicaDe tabla k * inject_Z x.
Proof.
  unfold acumular. destruct (leerProp k o) as [v|] eqn:L.
  - destruct (v =? 0)%Z eqn:Z0; rewrite masaDe_ponerProp; unfold cuenta; rewrite L.
    + apply Z.eqb_eq in Z0. subst v. ring.
    + rewrite inject_Z_plus. ring.
  - rewrite masaDe_ponerProp. unfold cuenta. rewrite L. ring.
Qed.

Lemma masaDe_volcar (tabla : cadena -> option Elemento) (m : Z) (g : objeto Z) :
  forall actual : objeto Z,
    masaDe tabla (fold_left (fun a kv => acumular (fst kv) (snd kv * m)%Z a) g actual) ==
    masaDe tabla actual + inject_Z m * masaDe tabla g.
Proof.
  induction g as [|[k v] g IH]; simpl; intros actual.
  - ring.
  - rewrite IH, masaDe_acumular, inject_Z_mult. ring.
Qed.

Lemma masaDe_contarAtomos_aux (tabla : cadena -> option Elemento) (cs : list Compuesto) :
  forall conteo : objeto Z,
    masaDe tabla (fold_left contarCompuesto cs conteo) ==
    masaDe tabla conteo
    + fold_right (fun c acc => inject_Z (coeficiente c) * masaDe tabla (elementos c) + acc)
                 0 cs.
Proof.
  induction cs as [|c cs IH]; simpl; intros conteo.
  - ring.
  - rewrite IH. unfold contarCompuesto at 1. rewrite masaDe_volcar. ring.
Qed.

Lemma NoDup_claves_acumular (k : cadena) (x : Z) (o : objeto Z) :
  NoDup (claves o) -> NoDup (claves (acumular k x o)).
Proof.
  intros H. rewrite claves_acumular.
  destruct (existsb (Cadena.eqb k) (claves o)) eqn:E; [exact H|].
  apply NoDup_snoc; [exact H|]. now apply existsb_eqb_notIn.
Qed.

Lemma NoDup_claves_contarAtomos (cs : list Compuesto) :
  NoDup (claves (contarAtomos cs)).
Proof.
  unfold contarAtomos.
  assert (forall conteo, NoDup (claves conteo) ->
                         NoDup (claves (fold_left contarCompuesto cs conteo))) as H.
  { induction cs as [|c cs IH]; simpl; intros conteo Hc; [exact Hc|].
    apply IH. unfold contarCompuesto.
    generalize (elementos c) conteo Hc. clear.
    intros g. induction g as [|[k v] g IHg]; simpl; intros conteo Hc; [exact Hc|].
    apply IHg. now apply NoDup_claves_acumular. }
  apply H. constructor.
Qed.

Lemma cuenta_quitarClave (k k' : cadena) (o : objeto Z) :
  cuenta (quitarClave k o) k' = if Cadena.eqb k' k then 0%Z else cuenta o k'.
Proof.
  unfold cuenta. destruct (Cadena.eqb k' k) eqn:E;
    induction o as [|[k1 v1] o IH]; simpl; try reflexivity.
  - destruct (Cadena.eqb k1 k) eqn:E1; simpl; [exact IH|].
    destruct (Cadena.eqb k' k1) eqn:E2; [|exact IH].
    apply eqb_eq in E, E2. subst. rewrite eqb_refl in E1. discriminate.
  - destruct (Cadena.eqb k1 k) eqn:E1; simpl.
    + apply eqb_eq in E1. subst k1. rewrite E. exact IH.
    + destruct (Cadena.eqb k' k1); [reflexivity|exact IH].
Qed.

Lemma NoDup_claves_quitarClave (k : cadena) (o : objeto Z) :
  NoDup (claves o) -> NoDup (claves (quitarClave k o)).
Proof.
  induction o as [|[k1 v1] o IH]; simpl; intros H; [constructor|].
  inversion H as [|? ? Hni Hnd]; subst.
  destruct (Cadena.eqb k1 k); simpl; [now apply IH|].
  constructor; [|now apply IH].
  intros Hin. apply Hni. unfold claves, quitarClave in *.
  apply in_map_iff in Hin. destruct Hin as [[k2 v2] [E Hin]].
  apply filter_In in Hin. destruct Hin as [Hin _]. simpl in E. subst k2.
  change k1 with (fst (k1, v2)). now apply in_map.
Qed.

Lemma masaDe_quitarClave (tabla : cadena -> option Elemento) (k : cadena) (o : objeto Z) :
  NoDup (claves o) ->
  masaDe tabla o ==
  masaAtomicaDe tabla k * inject_Z (cuenta o k) + masaDe tabla (quitarClave k o).
Proof.
  induction o as [|[k1 v1] o IH]; intros H.
  - unfold cuenta. simpl. ring.
  - inversion H as [|? ? Hni Hnd]; subst. simpl quitarClave. simpl masaDe.
    destruct (Cadena.eqb k1 k) eqn:E; simpl.
    + apply eqb_eq in E. subst k1.
      assert (cuenta ((k, v1) :: o) k = v1) as ->
          by (unfold cuenta; simpl; now rewrite eqb_refl).
      assert (quitarClave k o = o) as ->.
      { clear IH Hnd H. induction o as [|[k2 v2] o IHo]; [reflexivity|]. simpl.
        destruct (Cadena.eqb k2 k) eqn:E2.
        - apply eqb_eq in E2. subst k2. exfalso. apply Hni. now left.
        - simpl. f_equal. apply IHo. intros Hin. apply Hni. now right. }
      reflexivity.
    + assert (cuenta ((k1, v1) :: o) k = cuenta o k) as ->.
      { unfold cuenta. simpl. rewrite eqb_sym, E. reflexivity. }
      rewrite (IH Hnd). ring.
Qed.

Lemma masaDe_cuentas (tabla : cadena -> option Elemento) (o1 : objeto Z) :
  forall o2 : objeto Z,
    NoDup (claves o1) -> NoDup (claves o2) ->
    (forall k, cuenta o1 k = cuenta o2 k) ->
    masaDe tabla o1 == masaDe tabla o2.
Proof.
  induction o1 as [|[k v] o1 IH]; intros o2 H1 H2 Hc.
  - simpl. induction o2 as [|[k2 v2] o2 IHo]; [reflexivity|]. simpl.
    inversion H2 as [|? ? Hni Hnd]; subst.
    assert (v2 = 0%Z) as ->.
    { specialize (Hc k2). unfold cuenta in Hc. simpl in Hc. rewrite eqb_refl in Hc.
      congruence. }
    rewrite <- IHo; [ring|exact Hnd|]. intros k'. specialize (Hc k').
    unfold cuenta in *. simpl in *. destruct (Cadena.eqb k' k2) eqn:E; [|exact Hc].
    apply eqb_eq in E. subst k'. apply leerProp_None in Hni. now rewrite Hni.
  - inversion H1 as [|? ? Hni Hnd]; subst.
    rewrite (@masaDe_quitarClave tabla k o2 H2). simpl.
    assert (cuenta o2 k = v) as ->.
    { rewrite <- Hc. unfold cuenta. simpl. now rewrite eqb_refl. }
    rewrite (IH (quitarClave k o2) Hnd (@NoDup_claves_quitarClave k o2 H2)); [reflexivity|].
    intros k'. rewrite cuenta_quitarClave. specialize (Hc k').
    unfold cuenta in Hc at 1. simpl in Hc. destruct (Cadena.eqb k' k) eqn:E.
    + apply eqb_eq in E. subst k'. apply leerProp_None in Hni.
      unfold cuenta. now rewrite Hni.
    + exact Hc.
Qed.

Lemma parsearCompuesto_elementos (t : cadena) (c : Compuesto) :
  parsearCompuesto t = Ok c -> parsearFormula (formula c) = Ok (elementos c).
Proof.
  unfold parsearCompuesto. destruct (leer esDigito (trim t)) as [coef resto].
  destruct (parsearFormula resto) as [els|] eqn:P; simpl; [|discriminate].
  intros [= <-]. exact P.
Qed.

Lemma parsearEcuacion_elementos (ecuacion : cadena) (parseada : Ecuacion) :
  parsearEcuacion ecuacion = Ok parseada ->
  forall c, In c (reactivos parseada ++ productos parseada) ->
            parsearFormula (formula c) = Ok (elementos c).
Proof.
  unfold parsearEcuacion.
  destruct (splitFlecha (normalizar ecuacion)) as [|p0 [|p1 [|p2 l]]]; try discriminate.
  destruct (mapM parsearCompuesto (splitMas (trim p0))) as [rs|] eqn:R; simpl;
    [|discriminate].
  destruct (mapM parsearCompuesto (splitMas (trim p1))) as [ps|] eqn:P; simpl;
    [|discriminate].
  intros [= <-]. simpl. intros c Hc. apply in_app_or in Hc. destruct Hc as [Hc|Hc].
  - destruct (mapM_In _ _ R _ Hc) as [t [_ Ht]]. eapply parsearCompuesto_elementos; eauto.
  - destruct (mapM_In _ _ P _ Hc) as [t [_ Ht]]. eapply parsearCompuesto_elementos; eauto.
Qed.

Lemma masaLado_masaDe (tabla : cadena -> option Elemento) (cs : list Compuesto) :
  forall ms : list Q,
    (forall c, In c cs -> parsearFormula (formula c) = Ok (elementos c)) ->
    masasMolares tabla cs = Ok ms ->
    masaLado cs ms ==
    fold_right (fun c acc => inject_Z (coeficiente c) * masaDe tabla (elementos c) + acc)
               0 cs.
Proof.
  unfold masasMolares.
  induction cs as [|c cs IH]; simpl; intros ms Hp H.
  - injection H as <-. reflexivity.
  - destruct (calcularMasaMolar tabla (formula c)) as [m|] eqn:M; simpl in H;
      [|discriminate].
    destruct (mapM (fun c => calcularMasaMolar tabla (formula c)) cs) as [ms0|] eqn:R;
      simpl in H; [|discriminate].
    injection H as <-. simpl. rewrite (IH ms0); auto.
    unfold calcularMasaMolar in M. rewrite (Hp c (or_introl eq_refl)) in M. simpl in M.
    rewrite (sumarMasas_masaDe _ _ _ M). ring.
Qed.

(** X13.  A balanced equation conserves mass: with the molar masses
    [calcularMasaMolar] gives its compounds, the coefficients times
    the molar masses add up to the same on both sides. *)
Theorem conservacion_de_masa (tabla : cadena -> option Elemento) (ecuacion : cadena)
        (parseada : Ecuacion) (b : Balance) (masasR masasP : list Q) :
  parsearEcuacion ecuacion = Ok parseada ->
  verificarBalance ecuacion = Ok b ->
  balanceada b = true ->
  masasMolares tabla (reactivos parseada) = Ok masasR ->
  masasMolares tabla (productos parseada) = Ok masasP ->
  masaLado (reactivos parseada) masasR == masaLado (productos parseada) masasP.
Proof.
  intros P Hb Hbal MR MP.
  pose proof (parsearEcuacion_elementos _ P) as He.
  rewrite (@masaLado_masaDe tabla (reactivos parseada) masasR)
    by (auto using in_or_app).
  rewrite (@masaLado_masaDe tabla (productos parseada) masasP)
    by (auto using in_or_app).
  pose proof (masaDe_contarAtomos_aux tabla (reactivos parseada) []) as ER.
  pose proof (masaDe_contarAtomos_aux tabla (productos parseada) []) as EP.
  simpl in ER, EP. rewrite Qplus_0_l in ER, EP.
  fold (contarAtomos (reactivos parseada)) in ER.
  fold (contarAtomos (productos parseada)) in EP.
  rewrite <- ER, <- EP. apply masaDe_cuentas; try apply NoDup_claves_contarAtomos.
  unfold verificarBalance in Hb. rewrite P in Hb. simpl in Hb. injection Hb as <-.
  apply balanceada_fold in Hbal. destruct Hbal as [_ Hbal].
  intros k.
  destruct (existsb (Cadena.eqb k)
                    (claves (contarAtomos (reactivos parseada)) ++
                     claves (contarAtomos (productos parseada)))) eqn:E.
  - apply Hbal. apply In_conjunto. now apply existsb_eqb_In.
  - apply existsb_eqb_notIn in E.
    assert (~ In k (claves (contarAtomos (reactivos parseada))) /\
            ~ In k (claves (contarAtomos (productos parseada)))) as [E1 E2]
        by (split; intros Hin; apply E; apply in_or_app; auto).
    apply leerProp_None in E1, E2. unfold cuenta. now rewrite E1, E2.
Qed.

Lemma conservacion_de_masa_testigo :
  exists parseada masasR masasP,
    parsearEcuacion (js "2H2 + O2 -> 2H2O") = Ok parseada /\
    masasMolares tablaEjemplo (reactivos parseada) = Ok masasR /\
    masasMolares tablaEjemplo (productos parseada) = Ok masasP /\
    masaLado (reactivos parseada) masasR == masaLado (productos parseada) masasP.
Proof.
  destruct (verificarBalance (js "2H2 + O2 -> 2H2O")) as [b|] eqn:B;
    [|vm_compute in B; discriminate].
  do 3 eexists. split; [reflexivity|]. split; [reflexivity|]. split; [reflexivity|].
  refine (@conservacion_de_masa tablaEjemplo (js "2H2 + O2 -> 2H2O") _ b _ _
            eq_refl B _ eq_refl eq_refl).
  vm_compute in B. injection B as <-. reflexivity.
Defined.

(** ** The order of the reactants *)

Lemma igual_entre (a b : numero) :
  lt a PInf = true -> lt b PInf = true -> lt a b = false -> lt b a = false ->
  igual a b.
Proof.
  destruct a as [x| | |], b as [y| | |]; simpl; try discriminate; auto.
  intros _ _. comparar x y; try discriminate; auto.
  comparar y x; try discriminate; intros _ _; lra.
Qed.

(** X14.  The ratio of the limiting reagent does not depend on the
    order the reactants are given in: for the same reactants in
    another order [encontrarReactivoLimitante] returns the same
    ratio, or throws the same error. *)
Theorem limitante_orden (ecuacion : cadena) (datos datos' : list DatoMoles) :
  Permutation datos datos' ->
  match encontrarReactivoLimitante ecuacion datos,
        encontrarReactivoLimitante ecuacion datos' with
  | Ok l, Ok l' => igual (li_proporcion l) (li_proporcion l')
  | Lanza e, Lanza e' => e = e'
  | _, _ => False
  end.
Proof.
  intros Hperm. unfold encontrarReactivoLimitante.
  destruct (parsearEcuacion ecuacion) as [p|e]; simpl; [|reflexivity].
  pose proof (invLimitante_final p datos) as [Hmin Hlim].
  pose proof (invLimitante_final p datos') as [Hmin' Hlim'].
  destruct (fold_left pasoLimitante (List.map (efectivo p) datos) (None, PInf))
    as [[ef|] menor];
    destruct (fold_left pasoLimitante (List.map (efectivo p) datos') (None, PInf))
      as [[ef'|] menor']; simpl in *.
  - destruct Hlim as [i [d [Hi [_ [-> [Hinf _]]]]]].
    destruct Hlim' as [i' [d' [Hi' [_ [-> [Hinf' _]]]]]].
    apply nth_error_In in Hi, Hi'.
    apply igual_entre; try assumption.
    + apply Hmin'. eapply Permutation_in; eauto.
    + apply Hmin. eapply Permutation_in; [apply Permutation_sym|]; eauto.
  - destruct Hlim as [i [d [Hi [_ [-> [Hinf _]]]]]]. subst menor'.
    apply nth_error_In in Hi.
    rewrite Hmin' in Hinf; [discriminate|]. eapply Permutation_in; eauto.
  - destruct Hlim' as [i' [d' [Hi' [_ [-> [Hinf' _]]]]]]. subst menor.
    apply nth_error_In in Hi'.
    rewrite Hmin in Hinf'; [discriminate|].
    eapply Permutation_in; [apply Permutation_sym|]; eauto.
  - reflexivity.
Qed.

Lemma limitante_orden_testigo :
  match encontrarReactivoLimitante (js "2H2 + O2 -> 2H2O")
                                   [molesPuros "H2" 4; molesPuros "O2" 1],
        encontrarReactivoLimitante (js "2H2 + O2 -> 2H2O")
                                   [molesPuros "O2" 1; molesPuros "H2" 4] with
  | Ok l, Ok l' => igual (li_proporcion l) (li_proporcion l')
  | Lanza e, Lanza e' => e = e'
  | _, _ => False
  end.
Proof.
  apply limitante_orden. apply perm_swap.
Defined.

(** ** The reactants in excess *)

Lemma buscarReactivo_existsb (parseada : Ecuacion) (f : cadena) :
  existsb (fun r => Cadena.eqb (formula r) f) (reactivos parseada) =
  match buscarReactivo parseada f with Some _ => true | None => false end.
Proof.
  unfold buscarReactivo. induction (reactivos parseada) as [|r rs IH]; simpl;
    [reflexivity|].
  destruct (Cadena.eqb (formula r) f); [reflexivity|exact IH].
Qed.

Lemma excesosDe_entradas (tabla : cadena -> option Elemento) (parseada : Ecuacion)
      (limitante : Limitante) (datos : list DatoMoles) :
  forall excesos,
    excesosDe tabla parseada limitante datos = Ok excesos ->
    List.map ex_formula excesos =
    filter (enExcesoB parseada limitante) (List.map dm_formula datos) /\
    forall x, In x excesos ->
      exists d r,
        In d datos /\
        buscarReactivo parseada (dm_formula d) = Some r /\
        ex_formula x = dm_formula d /\
        ex_formula x <> li_formula limitante /\
        ex_molesIniciales x = molesEfectivosDe d /\
        ex_molesUsados x = mul (li_proporcion limitante) (deZ (coeficiente r)) /\
        ex_molesSobrantes x = sub (ex_molesIniciales x) (ex_molesUsados x) /\
        molesAMasa tabla (ex_molesSobrantes x) (ex_formula x) = Ok (ex_masaSobrante x).
Proof.
  induction datos as [|d datos IH]; simpl; intros excesos H.
  - injection H as <-. split; [reflexivity|]. intros x [].
  - unfold enExcesoB at 1. rewrite buscarReactivo_existsb.
    destruct (Cadena.eqb (dm_formula d) (li_formula limitante)) eqn:E; simpl.
    { destruct (IH _ H) as [H1 H2]. split; [exact H1|].
      intros x Hx. destruct (H2 x Hx) as [d' [r [Hd Hr]]]. exists d', r. auto. }
    destruct (buscarReactivo parseada (dm_formula d)) as [r|] eqn:B.
    + destruct (molesAMasa tabla
                  (sub (molesEfectivosDe d)
                       (mul (li_proporcion limitante) (deZ (coeficiente r))))
                  (dm_formula d)) as [masa|] eqn:M; simpl in H; [|discriminate].
      destruct (excesosDe tabla parseada limitante datos) as [exc|]; simpl in H;
        [|discriminate].
      injection H as <-. destruct (IH _ eq_refl) as [H1 H2]. split.
      * simpl. now rewrite H1.
      * intros x [<-|Hx].
        { exists d, r. simpl. apply eqb_neq in E. repeat split; auto. }
        { destruct (H2 x Hx) as [d' [r' [Hd Hr]]]. exists d', r'. auto. }
    + destruct (IH _ H) as [H1 H2]. split; [exact H1|].
      intros x Hx. destruct (H2 x Hx) as [d' [r' [Hd Hr]]]. exists d', r'. auto.
Qed.

(** X15.  [calcularExceso] lists, in the order of the data, the
    reactants whose formula is not that of the limiting reagent and
    is the formula of a reactant of the equation, and no other; each
    entry has as remaining moles its initial moles less the moles
    used, the moles used being the limiting ratio times the
    coefficient. *)
Theorem calcularExceso_entradas (tabla : cadena -> option Elemento) (ecuacion : cadena)
        (parseada : Ecuacion) (datos : list DatoMoles) (limitante : Limitante)
        (excesos : list Exceso) :
  parsearEcuacion ecuacion = Ok parseada ->
  calcularExceso tabla ecuacion datos limitante = Ok excesos ->
  List.map ex_formula excesos =
  filter (enExcesoB parseada limitante) (List.map dm_formula datos) /\
  forall x, In x excesos ->
    ex_formula x <> li_formula limitante /\
    ex_molesSobrantes x = sub (ex_molesIniciales x) (ex_molesUsados x) /\
    exists r, In r (reactivos parseada) /\
              formula r = ex_formula x /\
              ex_molesUsados x = mul (li_proporcion limitante) (deZ (coeficiente r)).
Proof.
  intros P H. unfold calcularExceso in H. rewrite P in H. simpl in H.
  destruct (excesosDe_entradas _ _ _ _ H) as [H1 H2]. split; [exact H1|].
  intros x Hx. destruct (H2 x Hx) as [d [r [Hd [Hr [Hf [Hne [_ [Hu [Hs _]]]]]]]]].
  repeat split; auto. exists r. unfold buscarReactivo in Hr.
  apply find_some in Hr. destruct Hr as [Hin Heq]. apply eqb_eq in Heq.
  repeat split; auto. congruence.
Qed.

Lemma calcularExceso_entradas_testigo :
  exists excesos,
    calcularExceso tablaEjemplo (js "2H2 + O2 -> 2H2O")
                   [molesPuros "H2" 4; molesPuros "O2" 1]
                   {| li_formula := js "O2"; li_moles := Fin 1; li_proporcion := Fin 1 |}
    = Ok excesos /\
    List.map ex_formula excesos = [js "H2"].
Proof.
  eexists. split; [reflexivity|].
  exact (proj1 (@calcularExceso_entradas
                  tablaEjemplo (js "2H2 + O2 -> 2H2O") _
                  [molesPuros "H2" 4; molesPuros "O2" 1]
                  {| li_formula := js "O2"; li_moles := Fin 1; li_proporcion := Fin 1 |}
                  _ eq_refl eq_refl)).
Defined.






(** ** Percent yield *)



(** ** Formulas as markup *)

Lemma textoDe_formulaAHtmlDesde (s : cadena) :
  Forall (fun c => c <> 60%N) s ->
  forall dentro, textoDe false (formulaAHtmlDesde dentro s) = s.
Proof.
  induction s as [|c s IH]; intros Hs dentro.
  - destruct dentro; reflexivity.
  - inversion Hs as [|? ? Hc Hs']; subst. apply N.eqb_neq in Hc.
    cbn [formulaAHtmlDesde].
    destruct (esDigito c), dentro; cbn; rewrite ?Hc; cbn; rewrite (IH Hs'); reflexivity.
Qed.

Lemma formulaAHtmlDesde_sin_digitos (s : cadena) :
  Forall (fun c => esDigito c = false) s -> formulaAHtmlDesde false s = s.
Proof.
  induction s as [|c s IH]; intros Hs; [reflexivity|].
  inversion Hs as [|? ? Hc Hs']; subst. cbn [formulaAHtmlDesde].
  rewrite Hc. simpl. now rewrite IH.
Qed.

(** X18.  [formulaAHtml] only adds tags: taking the tags out of its
    result gives back the formula, for a formula without [<]; and a
    formula without digits is returned as it is. *)
Theorem formulaAHtml_texto (f : cadena) :
  (Forall (fun c => c <> 60%N) f -> textoDe false (formulaAHtml f) = f) /\
  (Forall (fun c => esDigito c = false) f -> formulaAHtml f = f).
Proof.
  split.
  - intros H. now apply textoDe_formulaAHtmlDesde.
  - apply formulaAHtmlDesde_sin_digitos.
Qed.

Lemma formulaAHtml_texto_testigo :
  formulaAHtml (js "Al2(SO4)3") = js "Al<sub>2</sub>(SO<sub>4</sub>)<sub>3</sub>" /\
  textoDe false (formulaAHtml (js "Al2(SO4)3")) = js "Al2(SO4)3".
Proof.
  split; [reflexivity|].
  apply (proj1 (formulaAHtml_texto (js "Al2(SO4)3"))).
  repeat constructor; discriminate.
Defined.

(** ** The engine on the data of the form *)



Lemma mapM_map {A B C : Type} (f : A -> salida B) (g : B -> C) (h : A -> C)
      (l : list A) :
  (forall a b, f a = Ok b -> g b = h a) ->
  forall bs, mapM f l = Ok bs -> List.map g bs = List.map h l.
Proof.
  intros Hf. induction l as [|a l IH]; simpl; intros bs H.
  - now injection H as <-.
  - destruct (f a) as [b|] eqn:F; simpl in H; [|discriminate].
    destruct (mapM f l) as [bs0|]; simpl in H; [|discriminate].
    injection H as <-. simpl. f_equal; [now apply Hf|now apply IH].
Qed.

Lemma conMoles_formula (tabla : cadena -> option Elemento) (d : DatoReactivo)
      (dm : DatoMoles) :
  conMoles tabla d = Ok dm -> dm_formula dm = dr_formula d.
Proof.
  unfold conMoles. intros H.
  destruct (match dr_masa d, dr_moles d with
            | Some masa, None => m <- masaAMoles tabla masa (dr_formula d) ;; Ok (Some m)
            | _, _ => Ok (dr_moles d)
            end) as [moles|]; simpl in H; [|discriminate].
  destruct (match dr_masa d with
            | Some masa => if verdadero masa then Ok masa
                           else molesAMasa tabla (aNumero moles) (dr_formula d)
            | None => molesAMasa tabla (aNumero moles) (dr_formula d)
            end) as [mi|]; simpl in H; [|discriminate].
  now injection H as <-.
Qed.




Lemma encontrar_formula (ecuacion : cadena) (datos : list DatoMoles)
      (limitante : Limitante) :
  encontrarReactivoLimitante ecuacion datos = Ok limitante ->
  In (li_formula limitante) (List.map dm_formula datos).
Proof.
  unfold encontrarReactivoLimitante.
  destruct (parsearEcuacion ecuacion) as [p|]; simpl; [|discriminate].
  pose proof (invLimitante_final p datos) as [_ Hlim].
  destruct (fold_left pasoLimitante (List.map (efectivo p) datos) (None, PInf))
    as [[ef|] menor]; [|discriminate].
  intros [= <-]. simpl in *. destruct Hlim as [i [d [Hi [-> _]]]].
  apply nth_error_In in Hi. simpl. now apply in_map.
Qed.





(** ** What a result holds *)

Lemma mapM_conMoles_formulas (tabla : cadena -> option Elemento)
      (datos : list DatoReactivo) (rcm : list DatoMoles) :
  mapM (conMoles tabla) datos = Ok rcm ->
  List.map dm_formula rcm = List.map dr_formula datos.
Proof.
  apply mapM_map. intros d dm. apply conMoles_formula.
Qed.

(** X20.  A result of [calcularEstequiometria] is of an equation that
    passes validation and balance; its limiting reagent is one of the
    reactants of the data and is not among its reactants in excess,
    whose formulas are formulas of the data; and its products are the
    products of the equation, in order. *)
Theorem calcularEstequiometria_resultado
        (tabla : cadena -> option Elemento) (ecuacion : cadena) (parseada : Ecuacion)
        (datos : list DatoReactivo) (real : option ProductoReal)
        (res : Estequiometria) :
  calcularEstequiometria tabla ecuacion datos real = Ok res ->
  parsearEcuacion ecuacion = Ok parseada ->
  valida (validarEcuacion tabla ecuacion) = true /\
  (exists b, verificarBalance ecuacion = Ok b /\ balanceada b = true) /\
  In (rl_formula (reactivoLimitante res)) (List.map dr_formula datos) /\
  ~ In (rl_formula (reactivoLimitante res))
       (List.map re_formula (reactivosEnExceso res)) /\
  incl (List.map re_formula (reactivosEnExceso res)) (List.map dr_formula datos) /\
  List.map rp_formula (es_productos res) = List.map formula (productos parseada).
Proof.
  unfold calcularEstequiometria. intros H P.
  destruct (valida (validarEcuacion tabla ecuacion)); simpl in H; [|discriminate].
  destruct (verificarBalance ecuacion) as [b|]; cbn [ligar] in H; [|discriminate].
  destruct (balanceada b) eqn:Hbal; simpl in H; [|discriminate].
  destruct (mapM (conMoles tabla) datos) as [rcm|] eqn:E1; cbn [ligar] in H;
    [|discriminate].
  destruct (encontrarReactivoLimitante ecuacion rcm) as [lim|] eqn:E2; cbn [ligar] in H;
    [|discriminate].
  unfold calcularExceso, calcularRendimientoTeorico in H. rewrite P in H.
  cbn [ligar] in H.
  destruct (excesosDe tabla parseada lim rcm) as [exc|] eqn:E3; cbn [ligar] in H;
    [|discriminate].
  destruct (mapM (teoricoDe tabla lim) (productos parseada)) as [pts|] eqn:E4;
    cbn [ligar] in H; [|discriminate].
  destruct (rendimientoDe tabla pts real) as [porc|]; cbn [ligar] in H; [|discriminate].
  destruct (calcularMasaMolar tabla (li_formula lim)) as [ml|]; cbn [ligar] in H;
    [|discriminate].
  destruct (mapM (resExceso tabla) exc) as [enExceso|] eqn:E7; cbn [ligar] in H;
    [|discriminate].
  destruct (mapM (resProducto tabla) pts) as [prods|] eqn:E8; cbn [ligar] in H;
    [|discriminate].
  injection H as <-. simpl.
  pose proof (mapM_conMoles_formulas _ _ E1) as Hrcm.
  assert (List.map re_formula enExceso = List.map ex_formula exc) as Hex.
  { apply (mapM_map (resExceso tabla)); [|exact E7]. intros x rx Hx.
    unfold resExceso in Hx. destruct (calcularMasaMolar tabla (ex_formula x));
      simpl in Hx; [|discriminate]. now injection Hx as <-. }
  destruct (excesosDe_entradas _ _ _ _ E3) as [_ Hent].
  split; [reflexivity|]. split; [eauto|]. split; [|split; [|split]].
  - rewrite <- Hrcm. eapply encontrar_formula; eauto.
  - rewrite Hex. intros Hin. apply in_map_iff in Hin. destruct Hin as [x [Hf Hx]].
    destruct (Hent x Hx) as [d [r [_ [_ [_ [Hne _]]]]]]. congruence.
  - rewrite Hex, <- Hrcm. intros f Hin. apply in_map_iff in Hin.
    destruct Hin as [x [<- Hx]].
    destruct (Hent x Hx) as [d [r [Hd [_ [Hf _]]]]]. rewrite Hf. now apply in_map.
  - transitivity (List.map pt_formula pts).
    + apply (mapM_map (resProducto tabla)); [|exact E8]. intros pt rp Hp.
      unfold resProducto in Hp. destruct (calcularMasaMolar tabla (pt_formula pt));
        simpl in Hp; [|discriminate]. now injection Hp as <-.
    + apply (mapM_map (teoricoDe tabla lim)); [|exact E4]. intros c pt Hp.
      unfold teoricoDe in Hp.
      destruct (molesAMasa tabla (mul (li_proporcion lim) (deZ (coeficiente c)))
                           (formula c)); simpl in Hp; [|discriminate].
      now injection Hp as <-.
Qed.

Lemma calcularEstequiometria_resultado_testigo :
  exists res,
    calcularEstequiometria tablaEjemplo (js "2H2 + O2 -> 2H2O")
                           [enMoles "H2" 4; enMoles "O2" 1] None = Ok res /\
    List.map rp_formula (es_productos res) = [js "H2O"].
Proof.
  eexists. split; [reflexivity|].
  exact (proj2 (proj2 (proj2 (proj2 (proj2
    (@calcularEstequiometria_resultado
       tablaEjemplo (js "2H2 + O2 -> 2H2O") _
       [enMoles "H2" 4; enMoles "O2" 1] None _ eq_refl eq_refl)))))).
Defined.

(** ** The spellings of the arrow *)

Lemma reemplazar_app (x : unidad) (a b : cadena) :
  reemplazar x (a ++ b) = reemplazar x a ++ reemplazar x b.
Proof. unfold reemplazar. apply flat_map_app. Qed.

Lemma normalizar_app (a b : cadena) :
  normalizar (a ++ b) = normalizar a ++ normalizar b.
Proof. unfold normalizar. now rewrite !reemplazar_app. Qed.

(** X21.  The three spellings of the reaction arrow are one: an
    equation written with [=], with U+2192 or with [->] between the
    same two sides is parsed the same. *)
Theorem flechas_equivalentes (a b : cadena) :
  parsearEcuacion (a ++ [cIgual] ++ b) = parsearEcuacion (a ++ [cGuion; cMayor] ++ b) /\
  parsearEcuacion (a ++ [cFlecha] ++ b) = parsearEcuacion (a ++ [cGuion; cMayor] ++ b).
Proof.
  unfold parsearEcuacion. rewrite !normalizar_app. split; reflexivity.
Qed.

(** ** Blanks around a compound *)

Lemma quitarIzq_blancos (ws s : cadena) :
  Forall (fun c => esBlanco c = true) ws -> quitarIzq (ws ++ s) = quitarIzq s.
Proof.
  induction ws as [|c ws IH]; intros H; [reflexivity|].
  inversion H as [|? ? Hc Hws]; subst. simpl. rewrite Hc. now apply IH.
Qed.

Lemma trim_blancos (ws1 ws2 s : cadena) :
  Forall (fun c => esBlanco c = true) ws1 ->
  Forall (fun c => esBlanco c = true) ws2 ->
  trim (ws1 ++ s ++ ws2) = trim s.
Proof.
  intros H1 H2. unfold trim. rewrite (quitarIzq_blancos _ H1).
  destruct (quitarIzq s) as [|c r] eqn:E.
  - (* [s] is all blanks *)
    assert (Forall (fun c => esBlanco c = true) s) as Hs.
    { clear -E. induction s as [|d s IH]; [constructor|]. simpl in E.
      destruct (esBlanco d) eqn:B; [|discriminate]. constructor; auto. }
    rewrite (quitarIzq_blancos _ Hs).
    assert (forall w, Forall (fun c => esBlanco c = true) w -> quitarIzq w = []) as Hb.
    { intros w Hw. rewrite <- (app_nil_r w). now rewrite quitarIzq_blancos. }
    rewrite (Hb ws2 H2). reflexivity.
  - assert (quitarIzq (s ++ ws2) = (c :: r) ++ ws2) as ->.
    { clear -E. induction s as [|d s IH]; [discriminate|]. simpl in *.
      destruct (esBlanco d); [now apply IH|]. now injection E as -> ->. }
    rewrite rev_app_distr.
    rewrite quitarIzq_blancos by (apply Forall_rev; exact H2). reflexivity.
Qed.

(** X22.  Blanks before and after a compound do not count:
    [parsearCompuesto] gives the same for a text and for the text
    with white space around it. *)
Theorem parsearCompuesto_blancos (ws1 ws2 texto : cadena) :
  Forall (fun c => esBlanco c = true) ws1 ->
  Forall (fun c => esBlanco c = true) ws2 ->
  parsearCompuesto (ws1 ++ texto ++ ws2) = parsearCompuesto texto.
Proof.
  intros H1 H2. unfold parsearCompuesto. now rewrite trim_blancos.
Qed.

Lemma parsearCompuesto_blancos_testigo :
  parsearCompuesto (js "  " ++ js "2H2O" ++ js " ") = parsearCompuesto (js "2H2O").
Proof.
  apply parsearCompuesto_blancos; repeat constructor.
Defined.

(** ** The molar mass of a group *)



